(** * WorkspaceEdit application engine of lsp-cli

    A shallow embedding of [applyWorkspaceEdit], [applyFileOperation],
    [applyTextEdits] and [formatWorkspaceEdit], with the JavaScript string
    and array primitives they use, of the actions of the [definition],
    [rename] and [references] commands, and the properties of the text
    patcher. *)

From Stdlib Require Import ZArith List Sorted Permutation Ascii String.
From stdpp Require Import base gmap strings list pretty.

Local Open Scope string_scope.

(** ** JavaScript string primitives

    A JavaScript string is a sequence of code units; [string] plays that role
    here, one [ascii] per code unit. *)

Module Js.

(** The line feed, the separator of [split('\n')] and [join('\n')]. *)
Definition LF : ascii := "010"%char.
Definition LFs : string := String LF EmptyString.

(** The double quote that the preview lines put around the new text. *)
Definition DQ : string := String "034"%char EmptyString.

(** [s.substring(0, n)]: the first [n] code units, all of [s] when [n] is
  past the end. *)
Fixpoint substring_to (n : nat) (s : string) : string :=
match n, s with
| S n', String c s' => String c (substring_to n' s')
| _, _ => EmptyString
end.

(** [s.substring(n)]: [s] without its first [n] code units, empty when [n]
  is past the end. *)
Fixpoint substring_from (n : nat) (s : string) : string :=
match n, s with
| S n', String _ s' => substring_from n' s'
| _, _ => s
end.

(** Prepends a code unit to the first field of a split. *)
Definition cons_head (c : ascii) (fields : list string) : list string :=
match fields with
| [] => [String c EmptyString]
| f :: fs => String c f :: fs
end.

(** [s.split('\n')]: the fields between line feeds; never empty. *)
Fixpoint split (s : string) : list string :=
match s with
| EmptyString => [EmptyString]
| String c s' =>
    if Ascii.eqb c LF then EmptyString :: split s'
    else cons_head c (split s')
end.

(** [a.join('\n')]. *)
Fixpoint join (a : list string) : string :=
match a with
| [] => EmptyString
| [x] => x
| x :: rest => x +:+ LFs +:+ join rest
end.

(** [a.splice(start, deleteCount, ...items)] on the array itself: [start] is
  clamped to the length, [deleteCount] to what is left after [start], and
  a negative [deleteCount] removes nothing. *)
Definition splice {A} (a : list A) (start : nat) (deleteCount : Z)
  (items : list A) : list A :=
let actualStart := Nat.min start (length a) in
let actualDelete :=
  Nat.min (Z.to_nat (Z.max deleteCount 0)) (length a - actualStart) in
take actualStart a ++ items ++ drop (actualStart + actualDelete) a.

End Js.

(** ** Data model (LSP types used by the engine)

    The engine takes its types from the LSP type declarations: [line] and
    [character] are the non-negative integers of a position, both counted
    from zero, [character] in code units within the line. *)

Record Position := { line : nat; character : nat }.
Record Range := { start : Position; end_ : Position }.
Record TextEdit := { range : Range; newText : string }.

#[global] Instance Position_eq_dec : EqDecision Position.
Proof. solve_decision. Defined.

Definition mkPos (l c : nat) : Position := {| line := l; character := c |}.
Definition mkEdit (sl sc el ec : nat) (t : string) : TextEdit :=
  {| range := {| start := mkPos sl sc; end_ := mkPos el ec |}; newText := t |}.

(** Exceptions that can leave the engine. *)
Inductive Exn :=
| JsError (message : string)   (* [throw new Error(message)] *)
| TypeError                    (* a method called on [undefined] *)
| FsFailure (reason : string). (* a rejected filesystem promise *)

(** Outcome of a call: a value, or the exception it threw. *)
Inductive Result (A : Type) :=
| Ok (a : A)
| Throw (e : Exn).
Arguments Ok {A} a.
Arguments Throw {A} e.

Definition isOk {A} (r : Result A) : bool :=
  match r with Ok _ => true | Throw _ => false end.

(** ** The loop body of [applyTextEdits]

    One iteration of [for (const edit of sortedEdits)] on the [lines] array.
    Reading a line past the end of the array yields [undefined], and the
    [substring] call on it throws. *)
Definition applyEdit (lines : list string) (edit : TextEdit)
    : Result (list string) :=
  let start := start (range edit) in
  let end_ := end_ (range edit) in
  if Nat.eqb (line start) (line end_) then
    (* Single line edit *)
    match lines !! line start with
    | None => Throw TypeError
    | Some line_ =>
        let before := Js.substring_to (character start) line_ in
        let after := Js.substring_from (character end_) line_ in
        Ok (<[line start := before +:+ newText edit +:+ after]> lines)
    end
  else
    (* Multi-line edit *)
    match lines !! line start, lines !! line end_ with
    | Some startLine, Some endLine =>
        let beforeStart := Js.substring_to (character start) startLine in
        let afterEnd := Js.substring_from (character end_) endLine in
        let newLines := Js.split (beforeStart +:+ newText edit +:+ afterEnd) in
        Ok (Js.splice lines (line start)
              (Z.of_nat (line end_) - Z.of_nat (line start) + 1) newLines)
    | _, _ => Throw TypeError
    end.

(** The whole loop. *)
Fixpoint applyEdits (lines : list string) (sortedEdits : list TextEdit)
    : Result (list string) :=
  match sortedEdits with
  | [] => Ok lines
  | edit :: rest =>
      match applyEdit lines edit with
      | Throw e => Throw e
      | Ok lines' => applyEdits lines' rest
      end
  end.

(** ** The sort of [applyTextEdits]

    The comparator passed to [Array.prototype.sort]. *)
Definition compareEdits (a b : TextEdit) : Z :=
  let lineDiff :=
    (Z.of_nat (line (start (range b))) - Z.of_nat (line (start (range a))))%Z in
  if negb (Z.eqb lineDiff 0) then lineDiff
  else (Z.of_nat (character (start (range b)))
        - Z.of_nat (character (start (range a))))%Z.

(** [Array.prototype.sort] is a stable sort: [a] comes before [b] when
    [cmp a b < 0], and elements that compare equal keep their input order.
    An insertion from the right is such a sort. *)
Section Sort.
Context {A : Type} (cmp : A -> A -> Z).

Fixpoint insertSorted (x : A) (l : list A) : list A :=
  match l with
  | [] => [x]
  | y :: l' => if (cmp x y <=? 0)%Z then x :: y :: l' else y :: insertSorted x l'
  end.

Fixpoint sort (l : list A) : list A :=
  match l with
  | [] => []
  | x :: l' => insertSorted x (sort l')
  end.
End Sort.

Definition sortedEdits (edits : list TextEdit) : list TextEdit :=
  sort compareEdits edits.

(** The text-only core of [applyTextEdits] in non-preview mode: split, apply
    the sorted edits, join. *)
Definition patchContent (content : string) (edits : list TextEdit)
    : Result string :=
  match applyEdits (Js.split content) (sortedEdits edits) with
  | Ok lines => Ok (Js.join lines)
  | Throw e => Throw e
  end.

(** ** Effects: the filesystem collaborator, the log sink and exceptions *)

(** How an awaited file primitive settles. *)
Inductive Settled (A : Type) :=
| Fulfilled (a : A)
| Rejected (reason : string).
Arguments Fulfilled {A} a.
Arguments Rejected {A} reason.

(** The file primitives the engine awaits.  Each either rejects or yields
    its value and the filesystem it leaves behind. *)
Class FileSystem (FS : Type) := {
  (* [Bun.file(path).text()] *)
  fs_text : FS -> string -> Settled string;
  (* [Bun.write(path, data)] *)
  fs_write : FS -> string -> string -> Settled FS;
  (* [Bun.file(path).delete()] *)
  fs_delete : FS -> string -> Settled FS;
  (* [rename(oldPath, newPath)] of [node:fs/promises] *)
  fs_rename : FS -> string -> string -> Settled FS
}.

(** A record of each call made to the filesystem collaborator. *)
Inductive FsCall :=
| CallText (path : string)
| CallWrite (path data : string)
| CallDelete (path : string)
| CallRename (oldPath newPath : string).

(** What a run can observe and change: the filesystem, the calls made to it
    so far and the lines sent to [log], both oldest first. *)
Record World (FS : Type) := mkWorld {
  files : FS;
  calls : list FsCall;
  logs : list string
}.
Arguments mkWorld {FS} files calls logs.
Arguments files {FS} w.
Arguments calls {FS} w.
Arguments logs {FS} w.

(** An [async] function body: it runs in a world and ends, with a value or a
    thrown exception, in the world it has reached by then. *)
Definition M (FS A : Type) : Type := World FS -> Result A * World FS.

Definition ret {FS A} (a : A) : M FS A := fun w => (Ok a, w).
Definition throw {FS A} (e : Exn) : M FS A := fun w => (Throw e, w).
Definition bind {FS A B} (m : M FS A) (k : A -> M FS B) : M FS B :=
  fun w =>
    match m w with
    | (Ok a, w') => k a w'
    | (Throw e, w') => (Throw e, w')
    end.

Declare Scope js_scope.
Delimit Scope js_scope with js.
Notation "'await' x <~ m 'in' k" := (bind m (fun x => k))
  (at level 10, x name, m at level 100, k at level 200) : js_scope.
Notation "m '>>' k" := (bind m (fun _ => k))
  (at level 62, right associativity) : js_scope.

(** [for (const x of xs) body(x)]. *)
Fixpoint forOf {FS A} (xs : list A) (body : A -> M FS unit) : M FS unit :=
  match xs with
  | [] => ret tt
  | x :: rest => bind (body x) (fun _ => forOf rest body)
  end.

Section Primitives.
Context {FS : Type} `{FileSystem FS}.

(** [log(message)] of the logger module: one more line on the sink. *)
Definition log (message : string) : M FS unit :=
  fun w => (Ok tt, mkWorld (files w) (calls w) (logs w ++ [message])).

Definition readText (path : string) : M FS string :=
  fun w =>
    let w' := mkWorld (files w) (calls w ++ [CallText path]) (logs w) in
    match fs_text (files w) path with
    | Fulfilled s => (Ok s, w')
    | Rejected reason => (Throw (FsFailure reason), w')
    end.

(** Runs a primitive that changes the filesystem and records the call. *)
Definition mutate (c : FsCall) (r : Settled FS) : M FS unit :=
  fun w =>
    match r with
    | Fulfilled fs' => (Ok tt, mkWorld fs' (calls w ++ [c]) (logs w))
    | Rejected reason =>
        (Throw (FsFailure reason),
         mkWorld (files w) (calls w ++ [c]) (logs w))
    end.

Definition writeFile (path data : string) : M FS unit :=
  fun w => mutate (CallWrite path data) (fs_write (files w) path data) w.

Definition deleteFile (path : string) : M FS unit :=
  fun w => mutate (CallDelete path) (fs_delete (files w) path) w.

Definition renameFile (oldPath newPath : string) : M FS unit :=
  fun w => mutate (CallRename oldPath newPath)
             (fs_rename (files w) oldPath newPath) w.
End Primitives.

(** ** WorkspaceEdit *)

(** A file operation as it arrives: the [kind] tag is whatever string the
    payload carries, and each location may be missing. *)
Record Operation := {
  kind : string;
  uri : option string;
  oldUri : option string;
  newUri : option string
}.

(** An entry of [documentChanges]: an object with a [kind] property, or a
    TextDocumentEdit. *)
Inductive DocumentChange :=
| FileOp (operation : Operation)
| TextDocumentEdit (textDocument_uri : string) (edits : list TextEdit).

(** [changes] holds the entries of the legacy object in the order
    [Object.entries] enumerates them. *)
Record WorkspaceEdit := {
  documentChanges : option (list DocumentChange);
  changes : option (list (string * list TextEdit))
}.

(** An entry of the array [applyWorkspaceEdit] returns. *)
Module ApplyResult.
Record t := { file : string; changes : nat }.
End ApplyResult.

(** The value of an optional string property when it is truthy: neither
    [undefined] nor the empty string. *)
Definition truthy (value : option string) : option string :=
  match value with
  | Some s => if decide (s = "") then None else Some s
  | None => None
  end.

(** [!value]. *)
Definition falsy (value : option string) : bool :=
  match truthy value with Some _ => false | None => true end.

(** ['name' in object] for an optional property. *)
Definition hasOwn (value : option string) : bool :=
  match value with Some _ => true | None => false end.

(** The [${dryRun ? '[DRY RUN] ' : ''}] prefix of the action lines. *)
Definition dryRunPrefix (dryRun : bool) : string :=
  if dryRun then "[DRY RUN] " else "".

(** The text both previews print for one edit:
    [${start.line + 1}:${start.character}-${end.line + 1}:${end.character}: "${newText}"]. *)
Definition describeEdit (edit : TextEdit) : string :=
  pretty (line (start (range edit)) + 1) +:+ ":" +:+
  pretty (character (start (range edit))) +:+ "-" +:+
  pretty (line (end_ (range edit)) + 1) +:+ ":" +:+
  pretty (character (end_ (range edit))) +:+ ": " +:+
  Js.DQ +:+ newText edit +:+ Js.DQ.

Local Open Scope js_scope.

Section Engine.
Context {FS : Type} `{FileSystem FS}.

(** [urlToFilePath] of the utils module and
    [path.relative(process.cwd(), _)], both outside the engine. *)
Variable urlToFilePath : string -> string.
Variable relativeToCwd : string -> string.

Definition applyFileOperation (operation : Operation) (dryRun : bool)
    : M FS unit :=
  if decide (kind operation = "create") then
    match truthy (uri operation) with
    | None => throw (JsError "CreateFile missing uri")
    | Some uri_ =>
        let filePath := urlToFilePath uri_ in
        log (dryRunPrefix dryRun +:+ "Create file: " +:+ filePath) >>
        if negb dryRun then writeFile filePath "" else ret tt
    end
  else if decide (kind operation = "delete") then
    match truthy (uri operation) with
    | None => throw (JsError "DeleteFile missing uri")
    | Some uri_ =>
        let filePath := urlToFilePath uri_ in
        log (dryRunPrefix dryRun +:+ "Delete file: " +:+ filePath) >>
        if negb dryRun then deleteFile filePath else ret tt
    end
  else if decide (kind operation = "rename") then
    match truthy (oldUri operation), truthy (newUri operation) with
    | Some oldUri_, Some newUri_ =>
        let oldPath := urlToFilePath oldUri_ in
        let newPath := urlToFilePath newUri_ in
        log (dryRunPrefix dryRun +:+ "Rename file: " +:+ oldPath
             +:+ " -> " +:+ newPath) >>
        if negb dryRun then renameFile oldPath newPath else ret tt
    | _, _ => throw (JsError "RenameFile missing oldUri or newUri")
    end
  else ret tt.

Definition applyTextEdits (filePath : string) (edits : list TextEdit)
    (dryRun : bool) : M FS nat :=
  if Nat.eqb (length edits) 0 then ret 0
  else
    log (dryRunPrefix dryRun +:+ "Applying " +:+ pretty (length edits)
         +:+ " edits to " +:+ filePath) >>
    let sortedEdits := sortedEdits edits in
    if dryRun then
      forOf (rev sortedEdits)
        (fun edit => log ("  [DRY RUN] " +:+ describeEdit edit)) >>
      ret (length edits)
    else
      await content <~ readText filePath in
      let lines := Js.split content in
      match applyEdits lines sortedEdits with
      | Throw e => throw e
      | Ok lines' =>
          writeFile filePath (Js.join lines') >>
          ret (length edits)
      end.

(** The loop over [edit.documentChanges], pushing onto [results]. *)
Fixpoint applyDocumentChanges (documentChanges : list DocumentChange)
    (dryRun : bool) (results : list ApplyResult.t)
    : M FS (list ApplyResult.t) :=
  match documentChanges with
  | [] => ret results
  | FileOp operation :: rest =>
      applyFileOperation operation dryRun >>
      applyDocumentChanges rest dryRun results
  | TextDocumentEdit uri_ edits :: rest =>
      let filePath := urlToFilePath uri_ in
      await n <~ applyTextEdits filePath edits dryRun in
      applyDocumentChanges rest dryRun
        (results ++ [{| ApplyResult.file := relativeToCwd filePath;
                       ApplyResult.changes := n |}])
  end.

(** The loop over [Object.entries(edit.changes)]. *)
Fixpoint applyLegacyChanges (entries : list (string * list TextEdit))
    (dryRun : bool) (results : list ApplyResult.t)
    : M FS (list ApplyResult.t) :=
  match entries with
  | [] => ret results
  | (uri_, edits) :: rest =>
      let filePath := urlToFilePath uri_ in
      await n <~ applyTextEdits filePath edits dryRun in
      applyLegacyChanges rest dryRun
        (results ++ [{| ApplyResult.file := relativeToCwd filePath;
                       ApplyResult.changes := n |}])
  end.

Definition applyWorkspaceEdit (edit : WorkspaceEdit) (dryRun : bool)
    : M FS (list ApplyResult.t) :=
  let results := [] in
  match documentChanges edit with
  | Some documentChanges => applyDocumentChanges documentChanges dryRun results
  | None =>
      match changes edit with
      | Some entries => applyLegacyChanges entries dryRun results
      | None => ret results
      end
  end.

(** The lines [formatWorkspaceEdit] pushes for one batch of edits. *)
Definition formatBatch (uri_ : string) (edits : list TextEdit)
    : list string :=
  ("Edit " +:+ urlToFilePath uri_ +:+ ":")
  :: map (fun textEdit => "  " +:+ describeEdit textEdit) edits.

Definition formatChange (change : DocumentChange) : list string :=
  match change with
  | FileOp operation =>
      if bool_decide (kind operation = "create") && hasOwn (uri operation)
      then ["Create: " +:+ urlToFilePath (default "" (uri operation))]
      else if bool_decide (kind operation = "delete") && hasOwn (uri operation)
      then ["Delete: " +:+ urlToFilePath (default "" (uri operation))]
      else if bool_decide (kind operation = "rename")
              && hasOwn (oldUri operation) && hasOwn (newUri operation)
      then ["Rename: " +:+ urlToFilePath (default "" (oldUri operation))
            +:+ " -> " +:+ urlToFilePath (default "" (newUri operation))]
      else []
  | TextDocumentEdit uri_ edits => formatBatch uri_ edits
  end.

Definition formatWorkspaceEdit (edit : WorkspaceEdit) : string :=
  let lines :=
    match documentChanges edit with
    | Some documentChanges => concat (map formatChange documentChanges)
    | None =>
        match changes edit with
        | Some entries =>
            concat (map (fun '(uri_, edits) => formatBatch uri_ edits) entries)
        | None => []
        end
    end in
  Js.join lines.
End Engine.

(** ** An in-memory filesystem

    Paths map to file contents.  Reading, deleting or renaming a path that
    holds no file rejects; writing creates or replaces the file.  The store
    is flat: it has no directories and no links, so no call rejects for a
    missing parent directory, and two paths never name the same file. *)
Module MemFs.

Abbreviation t := (gmap string string).

Definition ENOENT : string := "ENOENT".

Definition text (fs : t) (path : string) : Settled string :=
match fs !! path with
| Some s => Fulfilled s
| None => Rejected ENOENT
end.

Definition write (fs : t) (path data : string) : Settled t :=
Fulfilled (<[path := data]> fs).

Definition delete (fs : t) (path : string) : Settled t :=
match fs !! path with
| Some _ => Fulfilled (base.delete path fs)
| None => Rejected ENOENT
end.

Definition rename (fs : t) (oldPath newPath : string) : Settled t :=
match fs !! oldPath with
| Some s => Fulfilled (<[newPath := s]> (base.delete oldPath fs))
| None => Rejected ENOENT
end.

#[export] Instance fileSystem : FileSystem t :=
  {| fs_text := text; fs_write := write;
     fs_delete := delete; fs_rename := rename |}.

(** A world with the given files, no call made and nothing logged. *)
Definition world (fs : t) : World t := mkWorld fs [] [].

End MemFs.
Import MemFs.

(** Stand-ins for the two path functions in the examples: a [file://] URI
    loses its scheme, and paths are shown as they are. *)
Definition stripScheme (u : string) : string :=
  if String.prefix "file://" u then Js.substring_from 7 u else u.

(** ** Vocabulary of the properties *)

(** [p] is not after [q], in (line, character) order. *)
Definition posLe (p q : Position) : Prop :=
  line p < line q \/ (line p = line q /\ character p <= character q).

(** The order the sort aims at: [a] starts at or after [b]. *)
Definition startsAtOrAfter (a b : TextEdit) : Prop :=
  posLe (start (range b)) (start (range a)).

(** A range of the document [lines]: its start is not after its end and its
    lines exist.  Characters past the end of a line need no bound, as
    [substring] clamps them. *)
Definition inBounds (lines : list string) (edit : TextEdit) : Prop :=
  posLe (start (range edit)) (end_ (range edit))
  /\ line (end_ (range edit)) < length lines.

(** Two edits do not overlap when one ends at or before the start of the
    other. *)
Definition nonOverlapping (a b : TextEdit) : Prop :=
  posLe (end_ (range a)) (start (range b))
  \/ posLe (end_ (range b)) (start (range a)).

(** A string without line feed. *)
Fixpoint noLF (s : string) : Prop :=
  match s with
  | EmptyString => True
  | String c s' => c <> Js.LF /\ noLF s'
  end.

(** The text-edit batches of a plan, in the order the engine meets them. *)
Definition batchOf (change : DocumentChange)
    : option (string * list TextEdit) :=
  match change with
  | FileOp _ => None
  | TextDocumentEdit uri_ edits => Some (uri_, edits)
  end.

Definition planBatches (edit : WorkspaceEdit)
    : list (string * list TextEdit) :=
  match documentChanges edit with
  | Some documentChanges => omap batchOf documentChanges
  | None => default [] (changes edit)
  end.

(** The file operations of a plan. *)
Definition operationOf (change : DocumentChange) : option Operation :=
  match change with
  | FileOp operation => Some operation
  | TextDocumentEdit _ _ => None
  end.

Definition planOperations (edit : WorkspaceEdit) : list Operation :=
  match documentChanges edit with
  | Some documentChanges => omap operationOf documentChanges
  | None => []
  end.

(** A create or delete without a usable [uri], or a rename without a usable
    [oldUri] or [newUri]; a property that is [undefined] or the empty string
    is not usable. *)
Definition lacksLocation (operation : Operation) : bool :=
  if decide (kind operation = "create") then falsy (uri operation)
  else if decide (kind operation = "delete") then falsy (uri operation)
  else if decide (kind operation = "rename")
       then falsy (oldUri operation) || falsy (newUri operation)
  else false.

(** The kinds [applyFileOperation] has a case for. *)
Definition knownKind (k : string) : Prop :=
  k = "create" \/ k = "delete" \/ k = "rename".

(** The files a file operation acts on, as paths. *)
Definition operationTargets (urlToFilePath : string -> string)
    (operation : Operation) : list string :=
  if decide (kind operation = "rename")
  then map urlToFilePath (option_list (oldUri operation)
                          ++ option_list (newUri operation))
  else map urlToFilePath (option_list (uri operation)).

(** The result entry of a batch. *)
Definition entryOf (urlToFilePath relativeToCwd : string -> string)
    (batch : string * list TextEdit) : ApplyResult.t :=
  {| ApplyResult.file := relativeToCwd (urlToFilePath (fst batch));
     ApplyResult.changes := length (snd batch) |}.

(** The line of the log that announces a batch. *)
Definition batchHeader (dryRun : bool) (filePath : string)
    (edits : list TextEdit) : string :=
  dryRunPrefix dryRun +:+ "Applying " +:+ pretty (length edits)
  +:+ " edits to " +:+ filePath.

(** The text that takes the place of an edit's range: what is before the
    start character on the start line, the new text, and what is after the
    end character on the end line. *)
Definition spliced (lines : list string) (edit : TextEdit) : string :=
  Js.substring_to (character (start (range edit)))
    (default "" (lines !! line (start (range edit))))
  +:+ newText edit +:+
  Js.substring_from (character (end_ (range edit)))
    (default "" (lines !! line (end_ (range edit)))).

(** The lines a preview of a batch logs. *)
Definition previewLines (filePath : string) (edits : list TextEdit)
    : list string :=
  match edits with
  | [] => []
  | _ => batchHeader true filePath edits
         :: map (fun edit => "  [DRY RUN] " +:+ describeEdit edit)
              (rev (sortedEdits edits))
  end.

(** ** Vocabulary of the text view of a batch *)

(** A replacement on a text by offsets: the code units from [from] up to
    [to] give way to [text]. *)
Record Cut := { from : nat; to : nat; text : string }.

Definition applyCut (s : string) (c : Cut) : string :=
  Js.substring_to (from c) s +:+ text c +:+ Js.substring_from (to c) s.

(** Replacements made one after the other, each with its own offsets. *)
Definition applyCuts (s : string) (cuts : list Cut) : string :=
  fold_left applyCut cuts s.

(** Replacements listed from the last of the text to the first, each within
    the text and ending at or before the start of the one listed before. *)
Fixpoint cutsApart (s : string) (cuts : list Cut) : Prop :=
  match cuts with
  | [] => True
  | c :: rest =>
      from c <= to c /\ to c <= String.length s
      /\ cutsApart (Js.substring_to (from c) s) rest
  end.

(** The replacements that undo [cuts] on the text they produced: each spans
    the text its cut put in and brings back the text its cut took out. *)
Fixpoint inverseCuts (s : string) (cuts : list Cut) : list Cut :=
  match cuts with
  | [] => []
  | c :: rest =>
      let head := applyCuts (Js.substring_to (from c) s) rest in
      {| from := String.length head;
         to := String.length head + String.length (text c);
         text := Js.substring_from (from c) (Js.substring_to (to c) s) |}
      :: inverseCuts (Js.substring_to (from c) s) rest
  end.

(** The text of a document before a position and from that position on. *)
Definition textBefore (lines : list string) (p : Position) : string :=
  Js.join (take (line p) lines
           ++ [Js.substring_to (character p) (default "" (lines !! line p))]).

Definition textAfter (lines : list string) (p : Position) : string :=
  Js.join (Js.substring_from (character p) (default "" (lines !! line p))
           :: drop (S (line p)) lines).

(** A position that is on a line of the document, within that line. *)
Definition within (lines : list string) (p : Position) : Prop :=
  line p < length lines
  /\ character p <= String.length (default "" (lines !! line p)).

(** An edit whose range is exact: its start is not after its end and both
    are positions of the document. *)
Definition placed (lines : list string) (edit : TextEdit) : Prop :=
  posLe (start (range edit)) (end_ (range edit))
  /\ within lines (start (range edit))
  /\ within lines (end_ (range edit)).

(** [b], applied after [a], ends at or before the start of [a]. *)
Definition endsBefore (a b : TextEdit) : Prop :=
  posLe (end_ (range b)) (start (range a)).

(** The array [lines] is still the original [lines0] up to the position
    [p]: the lines before are the same, and so is the line of [p] up to
    its character. *)
Definition agree (lines0 lines : list string) (p : Position) : Prop :=
  line p < length lines
  /\ take (line p) lines = take (line p) lines0
  /\ Js.substring_to (character p) (default "" (lines !! line p))
     = Js.substring_to (character p) (default "" (lines0 !! line p)).

(** An edit as a replacement by offsets in the text of [lines]. *)
Definition cutOf (lines : list string) (edit : TextEdit) : Cut :=
  {| from := String.length (textBefore lines (start (range edit)));
     to := String.length (textBefore lines (end_ (range edit)));
     text := newText edit |}.

(** The position at the end of a text: its last line, after its last
    code unit. *)
Definition endOf (s : string) : Position :=
  mkPos (length (Js.split s) - 1) (String.length (List.last (Js.split s) "")).

(** The position in a text of the offset [n]: the end of what is before. *)
Definition positionAt (s : string) (n : nat) : Position :=
  endOf (Js.substring_to n s).

(** A replacement by offsets as an edit of the text [s]. *)
Definition editAt (s : string) (c : Cut) : TextEdit :=
  {| range := {| start := positionAt s (from c); end_ := positionAt s (to c) |};
     newText := text c |}.

(** Two edits that do not start at the same position. *)
Definition distinctStarts (a b : TextEdit) : Prop :=
  start (range a) <> start (range b).

(** The text of a document from the position [p] up to the position [q]. *)
Definition textBetween (lines : list string) (p q : Position) : string :=
  Js.substring_from (String.length (textBefore lines p)) (textBefore lines q).

(** The logical inverses of a batch, read off the content it produces:
    for each edit, in the order of application, the edit that spans the new
    text in the content after the batch and puts back the text that was
    replaced. *)
Definition logicalInverse (content : string) (edits : list TextEdit)
    : list TextEdit :=
  let cuts := map (cutOf (Js.split content)) (sortedEdits edits) in
  map (editAt (applyCuts content cuts)) (inverseCuts content cuts).

(** ** Vocabulary of the further properties *)

(** The number of line feeds of a text. *)
Fixpoint lineFeeds (s : string) : nat :=
  match s with
  | EmptyString => 0
  | String c s' => (if Ascii.eqb c Js.LF then 1 else 0) + lineFeeds s'
  end.

(** A position whose character, when it is past the end of its line, is
    brought back to the end of the line. *)
Definition clampPosition (lines : list string) (p : Position) : Position :=
  mkPos (line p)
    (Nat.min (character p) (String.length (default "" (lines !! line p)))).

Definition clampEdit (lines : list string) (edit : TextEdit) : TextEdit :=
  {| range := {| start := clampPosition lines (start (range edit));
                 end_ := clampPosition lines (end_ (range edit)) |};
     newText := newText edit |}.

(** The edit that inserts [t] at the position [p]. *)
Definition insertAt (p : Position) (t : string) : TextEdit :=
  {| range := {| start := p; end_ := p |}; newText := t |}.

(** The paths that a plan names: the locations of its file operations and
    the files of its batches. *)
Definition changeTargets (urlToFilePath : string -> string)
    (change : DocumentChange) : list string :=
  match change with
  | FileOp operation => operationTargets urlToFilePath operation
  | TextDocumentEdit uri_ _ => [urlToFilePath uri_]
  end.

Definition planTargets (urlToFilePath : string -> string)
    (edit : WorkspaceEdit) : list string :=
  match documentChanges edit with
  | Some documentChanges =>
      concat (map (changeTargets urlToFilePath) documentChanges)
  | None =>
      map (fun batch => urlToFilePath (fst batch)) (default [] (changes edit))
  end.

(** The batches of a legacy mapping as entries of [documentChanges]. *)
Definition asDocumentChanges (entries : list (string * list TextEdit))
    : list DocumentChange :=
  map (fun '(uri_, edits) => TextDocumentEdit uri_ edits) entries.

(** ** The actions of the commands

    [registerDefinitionCommand], [registerRenameCommand] and
    [registerReferencesCommand] each register an action with the command
    line parser.  An action checks the options with
    [assertConfigFileOptions], builds the array of arguments and awaits
    [runCommand(name, args, opts.configFile)]; an action is embedded up to
    that call, which it returns. *)

(** The call [runCommand(commandName, commandArgs, configFile)]. *)
Record Invocation (Config : Type) := {
  commandName : string;
  commandArgs : list string;
  configFile : Config
}.
Arguments commandName {Config} i.
Arguments commandArgs {Config} i.
Arguments configFile {Config} i.

Section Commands.
Context {Options Config : Type}.

(** [assertConfigFileOptions] of the type guards, which returns or throws,
    and the [configFile] property of the options, both outside this
    module. *)
Variable assertConfigFileOptions : Options -> Result unit.
Variable configFileOf : Options -> Config.

Definition definitionAction (file symbol : string) (opts : Options)
    : Result (Invocation Config) :=
  match assertConfigFileOptions opts with
  | Throw e => Throw e
  | Ok _ =>
      Ok {| commandName := "definition";
            commandArgs := [file; symbol];
            configFile := configFileOf opts |}
  end.

(** [dryRun] is [options.dryRun], set by the [--dry-run] flag. *)
Definition renameAction (file line_ column newName : string) (dryRun : bool)
    (opts : Options) : Result (Invocation Config) :=
  match assertConfigFileOptions opts with
  | Throw e => Throw e
  | Ok _ =>
      let args := [file; line_; column; newName] in
      let args := if dryRun then (args ++ ["--dry-run"])%list else args in
      Ok {| commandName := "rename";
            commandArgs := args;
            configFile := configFileOf opts |}
  end.

(** [includeDeclaration] is [options.includeDeclaration], set by the
    [--include-declaration] flag. *)
Definition referencesAction (file line_ column : string)
    (includeDeclaration : bool) (opts : Options)
    : Result (Invocation Config) :=
  match assertConfigFileOptions opts with
  | Throw e => Throw e
  | Ok _ =>
      let args := [file; line_; column] in
      let args :=
        if includeDeclaration then (args ++ ["--include-declaration"])%list
        else args in
      Ok {| commandName := "references";
            commandArgs := args;
            configFile := configFileOf opts |}
  end.
End Commands.

(** * Properties *)

Local Open Scope list_scope.

(** ** Strings: [split] and [join] *)

Lemma split_nonempty s : Js.split s <> [].
Proof.
  destruct s as [|c s]; simpl; [discriminate|].
  destruct (Ascii.eqb c Js.LF); [discriminate|].
  destruct (Js.split s); discriminate.
Qed.

Lemma split_length_pos s : 0 < length (Js.split s).
Proof.
  pose proof (split_nonempty s). destruct (Js.split s); simpl; [done|lia].
Qed.

Lemma join_cons x rest :
  rest <> [] -> Js.join (x :: rest) = x +:+ Js.LFs +:+ Js.join rest.
Proof. destruct rest; [done|reflexivity]. Qed.

Lemma join_cons_head c fields :
  fields <> [] -> Js.join (Js.cons_head c fields) = String c (Js.join fields).
Proof.
  destruct fields as [|f [|g fs]]; [done| |]; intros _; reflexivity.
Qed.

(** Joining the fields of a split gives the string back. *)
Lemma join_split s : Js.join (Js.split s) = s.
Proof.
  induction s as [|c s IH]; [reflexivity|].
  simpl. destruct (Ascii.eqb c Js.LF) eqn:E.
  - apply Ascii.eqb_eq in E. subst c.
    rewrite join_cons by apply split_nonempty. simpl. by rewrite IH.
  - rewrite join_cons_head by apply split_nonempty. by rewrite IH.
Qed.

Lemma noLF_split s : noLF s -> Js.split s = [s].
Proof.
  induction s as [|c s IH]; [reflexivity|].
  intros [Hc Hs]. simpl. apply Ascii.eqb_neq in Hc. rewrite Hc.
  by rewrite IH.
Qed.

Lemma Forall_noLF_cons_head c fields :
  c <> Js.LF -> Forall noLF fields -> Forall noLF (Js.cons_head c fields).
Proof.
  intros Hc Hf. destruct Hf as [|f fs Hf Hfs]; simpl.
  - repeat constructor. done.
  - constructor; [by split|done].
Qed.

(** No field of a split holds a line feed. *)
Lemma split_noLF s : Forall noLF (Js.split s).
Proof.
  induction s as [|c s IH]; simpl; [by repeat constructor|].
  destruct (Ascii.eqb c Js.LF) eqn:E.
  - by constructor.
  - apply Forall_noLF_cons_head; [by apply Ascii.eqb_neq|done].
Qed.

Lemma cons_head_app c fields more :
  fields <> [] -> Js.cons_head c (fields ++ more) = Js.cons_head c fields ++ more.
Proof. destruct fields; [done|reflexivity]. Qed.

(** Splitting around a line feed. *)
Lemma split_app_LF a b :
  Js.split (a +:+ Js.LFs +:+ b) = Js.split a ++ Js.split b.
Proof.
  induction a as [|c a IH]; [reflexivity|].
  simpl. destruct (Ascii.eqb c Js.LF).
  - simpl in IH. by rewrite IH.
  - simpl in IH. rewrite IH. apply cons_head_app, split_nonempty.
Qed.

(** Splitting a join splits each element. *)
Lemma split_join (a : list string) :
  a <> [] -> Js.split (Js.join a) = concat (map Js.split a).
Proof.
  induction a as [|x [|y rest] IH]; [done| |]; intros _.
  - simpl. by rewrite app_nil_r.
  - rewrite join_cons by done. rewrite split_app_LF, IH by done. reflexivity.
Qed.

Lemma concat_split_noLF (a : list string) :
  Forall noLF a -> concat (map Js.split a) = a.
Proof.
  induction 1 as [|x a Hx Ha IH]; [reflexivity|].
  simpl. rewrite noLF_split, IH by done. reflexivity.
Qed.


Lemma substring_from_length s : Js.substring_from (String.length s) s = "".
Proof. induction s; simpl; auto. Qed.

Lemma string_app_cons c (s t : string) : String c s +:+ t = String c (s +:+ t).
Proof. reflexivity. Qed.

Lemma string_app_nil_r (s : string) : s +:+ "" = s.
Proof.
  induction s as [|c s IH]; [reflexivity|].
  by rewrite string_app_cons, IH.
Qed.

(** ** The stable sort *)

Section SortFacts.
Context {A : Type} (cmp : A -> A -> Z).

Lemma insertSorted_perm x l : Permutation (insertSorted cmp x l) (x :: l).
Proof.
  induction l as [|y l IH]; simpl; [done|].
  destruct (cmp x y <=? 0)%Z; [done|].
  rewrite IH. apply perm_swap.
Qed.

(** The sorted array holds the elements of the input, each once. *)
Lemma sort_perm l : Permutation (sort cmp l) l.
Proof.
  induction l as [|x l IH]; simpl; [done|].
  rewrite insertSorted_perm. by constructor.
Qed.

(** For a comparator that is total and transitive. *)
Hypothesis cmp_total : forall a b, (0 < cmp a b)%Z -> (cmp b a <= 0)%Z.
Hypothesis cmp_trans :
  forall a b c, (cmp a b <= 0)%Z -> (cmp b c <= 0)%Z -> (cmp a c <= 0)%Z.

Lemma insertSorted_sorted x l :
  StronglySorted (fun a b => (cmp a b <= 0)%Z) l ->
  StronglySorted (fun a b => (cmp a b <= 0)%Z) (insertSorted cmp x l).
Proof.
  induction 1 as [|y l Hl IH Hy]; simpl.
  - repeat constructor.
  - destruct (Z.leb_spec (cmp x y) 0) as [Hxy|Hxy].
    + constructor; [by constructor|].
      constructor; [done|].
      eapply Forall_impl; [exact Hy|]. intros z Hz. by eapply cmp_trans.
    + constructor; [done|].
      eapply Permutation_Forall; [symmetry; apply insertSorted_perm|].
      constructor; [by apply cmp_total|done].
Qed.

Lemma sort_sorted l :
  StronglySorted (fun a b => (cmp a b <= 0)%Z) (sort cmp l).
Proof.
  induction l as [|x l IH]; simpl; [constructor|].
  by apply insertSorted_sorted.
Qed.
End SortFacts.

Lemma StronglySorted_weaken {A} (R S : A -> A -> Prop) l :
  (forall a b, R a b -> S a b) -> StronglySorted R l -> StronglySorted S l.
Proof.
  intros HRS. induction 1 as [|x l Hl IH Hx]; constructor; [done|].
  eapply Forall_impl; eauto.
Qed.

(** The comparator orders by start position, last position first. *)
Lemma compareEdits_le a b :
  (compareEdits a b <= 0)%Z <-> startsAtOrAfter a b.
Proof.
  unfold compareEdits, startsAtOrAfter, posLe.
  destruct (Z.eqb_spec
    (Z.of_nat (line (start (range b))) - Z.of_nat (line (start (range a)))) 0);
    simpl; lia.
Qed.

Lemma sortedEdits_perm edits : Permutation (sortedEdits edits) edits.
Proof. apply sort_perm. Qed.

Lemma sortedEdits_sorted edits :
  StronglySorted startsAtOrAfter (sortedEdits edits).
Proof.
  eapply StronglySorted_weaken; [|apply (sort_sorted compareEdits)].
  - intros a b. apply compareEdits_le.
  - intros a b H. apply compareEdits_le.
    assert (~ startsAtOrAfter a b) as Hn by (rewrite <- compareEdits_le; lia).
    unfold startsAtOrAfter, posLe in *. lia.
  - intros a b c. rewrite !compareEdits_le.
    unfold startsAtOrAfter, posLe. lia.
Qed.

(** The sort is stable: the edits that start at a given position come out
    in the order they came in. *)
Lemma insertSorted_stable p x l :
  filter (fun e => start (range e) = p) (insertSorted compareEdits x l)
  = filter (fun e => start (range e) = p) (x :: l).
Proof.
  induction l as [|y l IH]; [done|]. simpl.
  destruct (Z.leb_spec (compareEdits x y) 0) as [Hle|Hgt]; [done|].
  rewrite filter_cons, IH, !filter_cons.
  assert (start (range x) <> start (range y)) as Hne.
  { intros Heq. unfold compareEdits in Hgt. rewrite Heq in Hgt.
    rewrite !Z.sub_diag in Hgt. simpl in Hgt. lia. }
  repeat case_decide; congruence.
Qed.

Lemma sortedEdits_length edits : length (sortedEdits edits) = length edits.
Proof. apply Permutation_length, sortedEdits_perm. Qed.

Lemma sortedEdits_singleton e : sortedEdits [e] = [e].
Proof. reflexivity. Qed.

(** A symmetric relation between all pairs of a list holds between all
    pairs of each of its permutations. *)
Lemma ForallOrdPairs_perm {A} (R : A -> A -> Prop) l l' :
  (forall a b, R a b -> R b a) ->
  Permutation l l' -> ForallOrdPairs R l -> ForallOrdPairs R l'.
Proof.
  intros Hsym. induction 1 as [|x l l' Hp IH|x y l|l l' l'' _ IH1 _ IH2].
  - done.
  - inversion 1; subst. constructor; [|auto].
    eapply Permutation_Forall; eauto.
  - inversion 1 as [|? ? Hy Hrest]; subst.
    inversion Hrest as [|? ? Hx Hl]; subst.
    inversion Hy; subst.
    constructor; [constructor; auto|]. by constructor.
  - auto.
Qed.

(** ** One edit on the array of lines *)

Lemma inBounds_lines lines edit :
  inBounds lines edit ->
  line (start (range edit)) <= line (end_ (range edit))
  /\ line (end_ (range edit)) < length lines.
Proof. unfold inBounds, posLe. lia. Qed.

Lemma splice_range {A} (a : list A) (s e : nat) (items : list A) :
  s <= e -> e < length a ->
  Js.splice a s (Z.of_nat e - Z.of_nat s + 1) items
  = take s a ++ items ++ drop (S e) a.
Proof.
  intros Hse He. unfold Js.splice.
  rewrite (Nat.min_l s) by lia.
  replace (Z.to_nat (Z.max (Z.of_nat e - Z.of_nat s + 1) 0)) with (e - s + 1)
    by lia.
  rewrite (Nat.min_l (e - s + 1)) by lia.
  do 3 f_equal. lia.
Qed.

(** A same-line edit stores the new line at its index. *)
Lemma applyEdit_single lines edit line_ :
  line (start (range edit)) = line (end_ (range edit)) ->
  lines !! line (start (range edit)) = Some line_ ->
  applyEdit lines edit
  = Ok (<[line (start (range edit)) :=
            Js.substring_to (character (start (range edit))) line_
            +:+ newText edit
            +:+ Js.substring_from (character (end_ (range edit))) line_]> lines).
Proof.
  intros Heq Hl. unfold applyEdit.
  rewrite (proj2 (Nat.eqb_eq _ _) Heq), Hl. reflexivity.
Qed.

(** A multi-line edit splices the inclusive range of lines. *)
Lemma applyEdit_multi lines edit startLine endLine :
  line (start (range edit)) < line (end_ (range edit)) ->
  lines !! line (start (range edit)) = Some startLine ->
  lines !! line (end_ (range edit)) = Some endLine ->
  applyEdit lines edit
  = Ok (take (line (start (range edit))) lines
        ++ Js.split (Js.substring_to (character (start (range edit))) startLine
                     +:+ newText edit
                     +:+ Js.substring_from (character (end_ (range edit))) endLine)
        ++ drop (S (line (end_ (range edit)))) lines).
Proof.
  intros Hlt Hs He. unfold applyEdit.
  rewrite (proj2 (Nat.eqb_neq _ _)) by lia. rewrite Hs, He.
  rewrite splice_range; [done|lia|by eapply lookup_lt_Some].
Qed.

(** An edit in bounds succeeds, and leaves an array that is not empty. *)
Lemma applyEdit_inBounds lines edit :
  inBounds lines edit ->
  exists lines',
    applyEdit lines edit = Ok lines'
    /\ line (start (range edit)) < length lines'
    /\ (line (start (range edit)) = line (end_ (range edit)) ->
        length lines' = length lines)
    /\ Js.split (Js.join lines')
       = concat (map Js.split (take (line (start (range edit))) lines))
         ++ Js.split (spliced lines edit)
         ++ concat (map Js.split (drop (S (line (end_ (range edit)))) lines)).
Proof.
  intros Hb. apply inBounds_lines in Hb as [Hse He].
  destruct (lookup_lt_is_Some_2 lines (line (end_ (range edit))) He)
    as [endLine HendLine].
  destruct (lookup_lt_is_Some_2 lines (line (start (range edit))))
    as [startLine HstartLine]; [lia|].
  unfold spliced. rewrite HstartLine, HendLine. simpl.
  destruct (decide (line (start (range edit)) = line (end_ (range edit))))
    as [Heq|Hne].
  - rewrite (applyEdit_single _ _ startLine) by done.
    eexists. split; [reflexivity|].
    rewrite length_insert. split; [lia|]. split; [done|].
    rewrite Heq in HstartLine. simplify_eq.
    rewrite insert_take_drop by lia.
    rewrite split_join by (intros Hnil; apply (f_equal length) in Hnil;
      rewrite length_app in Hnil; simpl in Hnil; lia).
    rewrite map_app, concat_app. simpl.
    by rewrite Heq.
  - rewrite (applyEdit_multi _ _ startLine endLine) by (done || lia).
    eexists. split; [reflexivity|].
    pose proof (split_length_pos
      (Js.substring_to (character (start (range edit))) startLine
       +:+ newText edit
       +:+ Js.substring_from (character (end_ (range edit))) endLine)) as Hpos.
    split; [rewrite !length_app, length_take; lia|]. split; [done|].
    rewrite split_join by (intros Hnil; apply (f_equal length) in Hnil;
      rewrite !length_app in Hnil; simpl in Hnil; lia).
    rewrite !map_app, !concat_app.
    by rewrite (concat_split_noLF (Js.split _)) by apply split_noLF.
Qed.

(** ** Strings: lengths and substrings *)

Lemma string_app_assoc (a b c : string) : (a +:+ b) +:+ c = a +:+ b +:+ c.
Proof.
  induction a as [|x a IH]; [reflexivity|].
  by rewrite !string_app_cons, IH.
Qed.

Lemma string_length_app (a b : string) :
  String.length (a +:+ b) = String.length a + String.length b.
Proof.
  induction a as [|x a IH]; [reflexivity|].
  rewrite string_app_cons. simpl. by rewrite IH.
Qed.

Lemma substring_to_from n s :
  Js.substring_to n s +:+ Js.substring_from n s = s.
Proof.
  revert s. induction n as [|n IH]; intros [|c s]; try reflexivity.
  simpl. by rewrite string_app_cons, IH.
Qed.

Lemma substring_to_length n s :
  String.length (Js.substring_to n s) = Nat.min n (String.length s).
Proof.
  revert s. induction n as [|n IH]; intros [|c s]; try reflexivity.
  simpl. by rewrite IH.
Qed.

Lemma substring_to_app n (a b : string) :
  n <= String.length a ->
  Js.substring_to n (a +:+ b) = Js.substring_to n a.
Proof.
  revert a. induction n as [|n IH]; intros [|c a] Hn; simpl in *;
    try reflexivity; try lia.
  by rewrite IH by lia.
Qed.

Lemma substring_from_app n (a b : string) :
  n <= String.length a ->
  Js.substring_from n (a +:+ b) = Js.substring_from n a +:+ b.
Proof.
  revert a. induction n as [|n IH]; intros [|c a] Hn; simpl in *;
    try reflexivity; try lia.
  by rewrite IH by lia.
Qed.

Lemma substring_to_all n s :
  String.length s <= n -> Js.substring_to n s = s.
Proof.
  revert s. induction n as [|n IH]; intros [|c s] Hn; simpl in *;
    try reflexivity; try lia.
  by rewrite IH by lia.
Qed.

Lemma substring_from_all n s :
  String.length s <= n -> Js.substring_from n s = "".
Proof.
  revert s. induction n as [|n IH]; intros [|c s] Hn; simpl in *;
    try reflexivity; try lia.
  by rewrite IH by lia.
Qed.

Lemma substring_to_app_length (a b : string) :
  Js.substring_to (String.length a) (a +:+ b) = a.
Proof. rewrite substring_to_app by lia. by apply substring_to_all. Qed.

Lemma substring_from_app_length (a b : string) :
  Js.substring_from (String.length a) (a +:+ b) = b.
Proof.
  rewrite substring_from_app by lia. by rewrite substring_from_all by lia.
Qed.

Lemma substring_from_app_plus n (a b : string) :
  Js.substring_from (String.length a + n) (a +:+ b) = Js.substring_from n b.
Proof.
  induction a as [|c a IH]; [reflexivity|].
  rewrite string_app_cons. simpl. apply IH.
Qed.

Lemma substring_to_to n m s :
  n <= m -> Js.substring_to n (Js.substring_to m s) = Js.substring_to n s.
Proof.
  revert m s. induction n as [|n IH]; intros [|m] [|c s] Hn; simpl in *;
    try reflexivity; try lia.
  by rewrite IH by lia.
Qed.

(** A text is what is before [a], what is between [a] and [b], and what is
    after [b]. *)
Lemma substring_three a b s :
  a <= b ->
  Js.substring_to a s
  +:+ Js.substring_from a (Js.substring_to b s)
  +:+ Js.substring_from b s = s.
Proof.
  intros Hab.
  rewrite <- (substring_to_to a b s) by done.
  rewrite <- string_app_assoc, substring_to_from.
  apply substring_to_from.
Qed.

(** ** Replacements by offsets *)

Lemma cutsApart_app s y cuts :
  cutsApart s cuts -> cutsApart (s +:+ y) cuts.
Proof.
  destruct cuts as [|c rest]; [done|]. simpl.
  intros (Hft & Hto & Hrest). rewrite string_length_app.
  rewrite substring_to_app by lia. repeat split; [done|lia|done].
Qed.

(** Replacements within the front part of a text leave the rest alone. *)
Lemma applyCuts_app x y cuts :
  cutsApart x cuts -> applyCuts (x +:+ y) cuts = applyCuts x cuts +:+ y.
Proof.
  revert x y. induction cuts as [|c rest IH]; intros x y; [done|].
  simpl. intros (Hft & Hto & Hrest). unfold applyCut.
  rewrite substring_to_app, substring_from_app by lia.
  rewrite (IH _ (text c +:+ Js.substring_from (to c) x +:+ y)) by done.
  rewrite (IH _ (text c +:+ Js.substring_from (to c) x)) by done.
  by rewrite !string_app_assoc.
Qed.

(** The text after the replacements: the front part with the other
    replacements made, the new text, and what was after the cut. *)
Lemma applyCuts_cons s c rest :
  cutsApart s (c :: rest) ->
  applyCuts s (c :: rest)
  = applyCuts (Js.substring_to (from c) s) rest
    +:+ text c +:+ Js.substring_from (to c) s.
Proof.
  simpl. intros (Hft & Hto & Hrest). unfold applyCut.
  by rewrite applyCuts_app.
Qed.

(** The inverse replacements are apart in the text produced, and bring
    the original text back. *)
Lemma inverseCuts_round_trip s cuts :
  cutsApart s cuts ->
  cutsApart (applyCuts s cuts) (inverseCuts s cuts)
  /\ applyCuts (applyCuts s cuts) (inverseCuts s cuts) = s.
Proof.
  revert s. induction cuts as [|c rest IH]; intros s Hwf; [done|].
  rewrite applyCuts_cons by done.
  destruct Hwf as (Hft & Hto & Hrest).
  destruct (IH _ Hrest) as [IHwf IHback].
  set (front := applyCuts (Js.substring_to (from c) s) rest) in *.
  cbn [inverseCuts]. fold front. split.
  - cbn [cutsApart from to]. rewrite !string_length_app.
    rewrite substring_to_app_length. split; [lia|]. split; [lia|done].
  - rewrite applyCuts_cons.
    + cbn [from to text]. rewrite substring_to_app_length, IHback.
      rewrite <- string_app_assoc, substring_from_app_plus.
      rewrite substring_from_app_length, string_app_assoc.
      by apply substring_three.
    + cbn [cutsApart from to]. rewrite !string_length_app.
      rewrite substring_to_app_length. split; [lia|]. split; [lia|done].
Qed.


(** ** Positions as places in the text *)

Lemma join_cons_app (a b : string) ys :
  Js.join ((a +:+ b) :: ys) = a +:+ Js.join (b :: ys).
Proof.
  destruct ys as [|y ys]; [reflexivity|].
  rewrite !join_cons by done. by rewrite string_app_assoc.
Qed.

Lemma join_snoc_cons xs (a b : string) ys :
  Js.join (xs ++ [a]) +:+ Js.join (b :: ys) = Js.join (xs ++ (a +:+ b) :: ys).
Proof.
  induction xs as [|x xs IH].
  - simpl app. by rewrite join_cons_app.
  - rewrite <- !app_comm_cons.
    rewrite (join_cons x (xs ++ [a])) by (by destruct xs).
    rewrite (join_cons x (xs ++ _ :: ys)) by (by destruct xs).
    by rewrite !string_app_assoc, IH.
Qed.

Lemma join_middle xs zs ys :
  zs <> [] -> Js.join (xs ++ zs ++ ys) = Js.join (xs ++ Js.join zs :: ys).
Proof.
  intros Hzs. induction xs as [|x xs IH].
  - simpl app. induction zs as [|z zs IHz]; [done|].
    destruct zs as [|z' zs]; [reflexivity|].
    rewrite <- app_comm_cons.
    rewrite (join_cons z (z' :: zs)), (join_cons z ((z' :: zs) ++ ys)) by done.
    rewrite IHz by done. by rewrite !join_cons_app.
  - rewrite <- !app_comm_cons.
    rewrite (join_cons x (xs ++ zs ++ ys)) by (destruct xs, zs; done).
    rewrite (join_cons x (xs ++ _ :: ys)) by (by destruct xs).
    by rewrite IH.
Qed.

(** A position on a line of the document cuts its text in two. *)
Lemma textBefore_textAfter lines p :
  line p < length lines ->
  textBefore lines p +:+ textAfter lines p = Js.join lines.
Proof.
  intros Hp. unfold textBefore, textAfter.
  destruct (lookup_lt_is_Some_2 lines (line p) Hp) as [l Hl].
  rewrite Hl. simpl default.
  rewrite join_snoc_cons, substring_to_from.
  by rewrite <- (take_drop_middle lines (line p) l) at 3 by done.
Qed.

(** What an edit does to the text: what is before its start, the new
    text, and what is after its end. *)
Lemma applyEdit_text lines edit :
  line (start (range edit)) <= line (end_ (range edit)) ->
  line (end_ (range edit)) < length lines ->
  exists lines',
    applyEdit lines edit = Ok lines'
    /\ Js.join lines'
       = textBefore lines (start (range edit))
         +:+ newText edit
         +:+ textAfter lines (end_ (range edit)).
Proof.
  intros Hse He. unfold textBefore, textAfter.
  destruct (lookup_lt_is_Some_2 lines (line (end_ (range edit))) He)
    as [endLine HendLine].
  destruct (lookup_lt_is_Some_2 lines (line (start (range edit))))
    as [startLine HstartLine]; [lia|].
  rewrite HstartLine, HendLine. simpl default.
  rewrite <- join_cons_app, join_snoc_cons.
  destruct (decide (line (start (range edit)) = line (end_ (range edit))))
    as [Heq|Hne].
  - rewrite (applyEdit_single _ _ startLine) by done.
    eexists. split; [reflexivity|].
    rewrite insert_take_drop by lia.
    rewrite <- Heq in *. by simplify_eq.
  - rewrite (applyEdit_multi _ _ startLine endLine) by (done || lia).
    eexists. split; [reflexivity|].
    rewrite join_middle by apply split_nonempty.
    by rewrite join_split.
Qed.


(** ** A batch as replacements by offsets *)

Lemma posLe_trans p q r : posLe p q -> posLe q r -> posLe p r.
Proof. unfold posLe. lia. Qed.

Lemma take_take_le {A} (l : list A) n m :
  n <= m -> take n (take m l) = take n l.
Proof. intros Hnm. by rewrite take_take, Nat.min_l. Qed.

Lemma agree_refl lines0 p : line p < length lines0 -> agree lines0 lines0 p.
Proof. by split. Qed.

(** Agreement up to a position is agreement up to each position before. *)
Lemma agree_le lines0 lines p q :
  posLe p q -> agree lines0 lines q -> agree lines0 lines p.
Proof.
  intros Hpq (Hq & Htake & Hline).
  destruct Hpq as [Hlt|[Heq Hc]].
  - assert (take (line p) lines = take (line p) lines0) as Htake'.
    { rewrite <- (take_take_le lines (line p) (line q)) by lia.
      rewrite <- (take_take_le lines0 (line p) (line q)) by lia.
      by rewrite Htake. }
    assert (lines !! line p = lines0 !! line p) as Hlook.
    { rewrite <- (lookup_take_lt lines (line q)) by done.
      rewrite <- (lookup_take_lt lines0 (line q)) by done.
      by rewrite Htake. }
    split; [lia|]. split; [done|]. by rewrite Hlook.
  - unfold agree. rewrite Heq. split; [done|]. split; [done|].
    rewrite <- (substring_to_to (character p) (character q)) by done.
    rewrite Hline. by apply substring_to_to.
Qed.

Lemma agree_textBefore lines0 lines p :
  agree lines0 lines p -> textBefore lines p = textBefore lines0 p.
Proof. intros (_ & Htake & Hline). unfold textBefore. by rewrite Htake, Hline. Qed.

Lemma noLF_substring_to n s : noLF s -> noLF (Js.substring_to n s).
Proof.
  revert s. induction n as [|n IH]; intros [|c s]; simpl; try done.
  intros [Hc Hs]. split; [done|by apply IH].
Qed.

Lemma noLF_lookup (lines : list string) i :
  Forall noLF lines -> noLF (default "" (lines !! i)).
Proof.
  intros Hall. destruct (lines !! i) as [l|] eqn:Hl; [|done].
  simpl. eapply Forall_lookup_1; eauto.
Qed.

(** A text that starts without line feed: its first field starts with it. *)
Lemma split_app_noLF pre x :
  noLF pre ->
  Js.split (pre +:+ x)
  = (pre +:+ hd "" (Js.split x)) :: tl (Js.split x).
Proof.
  induction pre as [|c pre IH].
  - intros _. change ("" +:+ x) with x.
    pose proof (split_nonempty x). by destruct (Js.split x).
  - intros [Hc Hpre]. rewrite string_app_cons. simpl.
    apply Ascii.eqb_neq in Hc. rewrite Hc. by rewrite IH.
Qed.

Lemma substring_to_app_exact n (a b : string) :
  String.length a = n -> Js.substring_to n (a +:+ b) = a.
Proof. intros <-. apply substring_to_app_length. Qed.

(** After an edit the array is still the original up to the start of the
    edit. *)
Lemma agree_after_edit lines0 lines edit lines' :
  Forall noLF lines0 ->
  within lines0 (start (range edit)) ->
  line (start (range edit)) <= line (end_ (range edit)) ->
  line (end_ (range edit)) < length lines ->
  agree lines0 lines (start (range edit)) ->
  applyEdit lines edit = Ok lines' ->
  agree lines0 lines' (start (range edit)).
Proof.
  intros HnoLF [_ Hchar] Hse He (Hs & Htake & Hline) Happly.
  destruct (lookup_lt_is_Some_2 lines (line (end_ (range edit))) He)
    as [endLine HendLine].
  destruct (lookup_lt_is_Some_2 lines (line (start (range edit))) Hs)
    as [startLine HstartLine].
  rewrite HstartLine in Hline. simpl in Hline.
  set (pre := Js.substring_to (character (start (range edit))) startLine) in *.
  assert (String.length pre = character (start (range edit))) as Hlen.
  { rewrite Hline, substring_to_length. lia. }
  assert (noLF pre) as Hpre.
  { rewrite Hline. by apply noLF_substring_to, noLF_lookup. }
  destruct (decide (line (start (range edit)) = line (end_ (range edit))))
    as [Heq|Hne].
  - rewrite (applyEdit_single _ _ startLine) in Happly by done.
    injection Happly as <-. unfold agree.
    rewrite length_insert, take_insert_ge by lia.
    rewrite list_lookup_insert_eq by done. simpl.
    split; [done|]. split; [done|].
    fold pre. by rewrite substring_to_app_exact.
  - rewrite (applyEdit_multi _ _ startLine endLine) in Happly by (done || lia).
    injection Happly as <-. unfold agree. fold pre.
    rewrite split_app_noLF by done.
    rewrite take_app_length' by (rewrite length_take; lia).
    rewrite lookup_app_r by (rewrite length_take; lia).
    replace (line (start (range edit))
             - length (take (line (start (range edit))) lines)) with 0
      by (rewrite length_take; lia).
    simpl. split; [rewrite length_app, length_take; simpl; lia|].
    split; [done|]. by rewrite substring_to_app_exact.
Qed.

(** Applied from the last to the first, edits that are exact and apart do
    to the text what their replacements by offsets in the original do. *)
Lemma applyEdits_cuts lines0 edits_ lines :
  Forall noLF lines0 ->
  Forall (placed lines0) edits_ ->
  StronglySorted endsBefore edits_ ->
  Forall (fun edit => agree lines0 lines (end_ (range edit))) edits_ ->
  exists lines',
    applyEdits lines edits_ = Ok lines'
    /\ Js.join lines' = applyCuts (Js.join lines) (map (cutOf lines0) edits_).
Proof.
  intros HnoLF. revert lines.
  induction edits_ as [|e rest IH]; intros lines Hplaced Hsorted Hagree.
  - by exists lines.
  - inversion Hplaced as [|? ? (Hse & Hws & Hwe) Hprest]; subst.
    inversion Hsorted as [|? ? Hsrest Hchain]; subst.
    inversion Hagree as [|? ? Hend Harest]; subst.
    pose proof (agree_le _ _ _ _ Hse Hend) as Hstart.
    assert (line (start (range e)) <= line (end_ (range e))) as Hlines
      by (unfold posLe in Hse; lia).
    destruct Hend as (He & Hend').
    destruct (applyEdit_text lines e Hlines He) as (lines1 & Happly & Hjoin).
    assert (agree lines0 lines1 (start (range e))) as Hstart1
      by (by eapply agree_after_edit).
    destruct (IH lines1 Hprest Hsrest) as (lines' & Hrun & Htext).
    { rewrite Forall_forall in *. intros e' He'.
      eapply agree_le; [apply (Hchain e' He')|done]. }
    exists lines'. simpl. rewrite Happly. split; [done|].
    rewrite Htext, Hjoin. f_equal. unfold applyCut, cutOf. simpl.
    rewrite <- (agree_textBefore lines0 lines (start (range e))) by done.
    rewrite <- (agree_textBefore lines0 lines (end_ (range e)))
      by (by split).
    rewrite <- (textBefore_textAfter lines (start (range e))) at 1
      by (destruct Hstart; lia).
    rewrite <- (textBefore_textAfter lines (end_ (range e))) at 1 by done.
    by rewrite substring_to_app_length, substring_from_app_length.
Qed.

(** ** Offsets follow positions *)

(** The text before a position starts with the text before each position
    at or before it. *)
Lemma textBefore_le lines p q :
  posLe p q -> line q < length lines ->
  textBefore lines q
  = textBefore lines p
    +:+ textAfter
          (take (line q) lines
           ++ [Js.substring_to (character q) (default "" (lines !! line q))])
          p.
Proof.
  intros Hpq Hq.
  set (lines1 := take (line q) lines
        ++ [Js.substring_to (character q) (default "" (lines !! line q))]).
  assert (length lines1 = S (line q)) as Hlen1.
  { unfold lines1. rewrite length_app, length_take. simpl. lia. }
  change (textBefore lines q) with (Js.join lines1).
  rewrite <- (textBefore_textAfter lines1 p) by (unfold posLe in Hpq; lia).
  f_equal. unfold textBefore. destruct Hpq as [Hlt|[Heq Hc]].
  - unfold lines1.
    rewrite take_app_le by (rewrite length_take; lia).
    rewrite take_take_le by lia.
    rewrite lookup_app_l by (rewrite length_take; lia).
    by rewrite lookup_take_lt by done.
  - unfold lines1. rewrite Heq.
    rewrite take_app_length' by (rewrite length_take; lia).
    rewrite lookup_app_r by (rewrite length_take; lia).
    replace (line q - length (take (line q) lines)) with 0
      by (rewrite length_take; lia).
    simpl. by rewrite substring_to_to.
Qed.

Lemma offset_le lines p q :
  posLe p q -> line q < length lines ->
  String.length (textBefore lines p) <= String.length (textBefore lines q).
Proof.
  intros Hpq Hq. rewrite (textBefore_le lines p q) by done.
  rewrite string_length_app. lia.
Qed.

Lemma offset_bound lines p :
  line p < length lines ->
  String.length (textBefore lines p) <= String.length (Js.join lines).
Proof.
  intros Hp. rewrite <- (textBefore_textAfter lines p) by done.
  rewrite string_length_app. lia.
Qed.

(** Edits that are exact and apart are, as replacements by offsets, apart
    in the text. *)
Lemma cutsApart_prefix lines0 edits_ n :
  Forall (placed lines0) edits_ ->
  StronglySorted endsBefore edits_ ->
  Forall (fun edit =>
            String.length (textBefore lines0 (end_ (range edit))) <= n) edits_ ->
  n <= String.length (Js.join lines0) ->
  cutsApart (Js.substring_to n (Js.join lines0)) (map (cutOf lines0) edits_).
Proof.
  revert n.
  induction edits_ as [|e rest IH]; intros n Hplaced Hsorted Hends Hn; [done|].
  inversion Hplaced as [|? ? (Hse & Hws & Hwe) Hprest]; subst.
  inversion Hsorted as [|? ? Hsrest Hchain]; subst.
  inversion Hends as [|? ? Hend Herest]; subst.
  cbn [map cutsApart cutOf from to].
  rewrite substring_to_length, substring_to_to.
  - split; [apply offset_le; [done|by destruct Hwe]|]. split; [lia|].
    apply IH; [done|done| |].
    + rewrite Forall_forall in *. intros e' He'.
      apply offset_le; [apply (Hchain e' He')|by destruct Hws].
    + apply offset_bound. by destruct Hws.
  - etransitivity; [|exact Hend]. apply offset_le; [done|by destruct Hwe].
Qed.

Lemma cutsApart_edits lines0 edits_ :
  Forall (placed lines0) edits_ ->
  StronglySorted endsBefore edits_ ->
  cutsApart (Js.join lines0) (map (cutOf lines0) edits_).
Proof.
  intros Hplaced Hsorted.
  rewrite <- (substring_to_all (String.length (Js.join lines0)) (Js.join lines0))
    at 1 by done.
  apply cutsApart_prefix; [done|done| |done].
  eapply Forall_impl; [exact Hplaced|].
  intros e (_ & _ & Hwe). apply offset_bound. by destruct Hwe.
Qed.


(** ** Positions of offsets *)

Lemma removelast_cons {A} (x : A) l :
  l <> [] -> removelast (x :: l) = x :: removelast l.
Proof. by destruct l. Qed.

Lemma last_cons {A} (x : A) l d :
  l <> [] -> List.last (x :: l) d = List.last l d.
Proof. by destruct l. Qed.

Lemma length_removelast {A} (l : list A) :
  length (removelast l) = length l - 1.
Proof.
  induction l as [|x [|y l] IH]; [done|done|].
  rewrite removelast_cons by done. simpl in *. lia.
Qed.

Lemma last_app_cons {A} (l : list A) x l' d :
  List.last (l ++ x :: l') d = List.last (x :: l') d.
Proof.
  induction l as [|y l IH]; [done|].
  rewrite <- app_comm_cons, last_cons by (by destruct l). done.
Qed.

(** The fields of two texts put end to end: the last field of the first
    and the first field of the second make one. *)
Lemma split_app x y :
  Js.split (x +:+ y)
  = removelast (Js.split x)
    ++ (List.last (Js.split x) "" +:+ hd "" (Js.split y)) :: tl (Js.split y).
Proof.
  induction x as [|c x IH].
  - change ("" +:+ y) with y. simpl.
    pose proof (split_nonempty y). by destruct (Js.split y).
  - rewrite string_app_cons. simpl.
    pose proof (split_nonempty x) as Hx.
    destruct (Ascii.eqb c Js.LF).
    + rewrite removelast_cons, last_cons by done. by rewrite IH.
    + rewrite IH. destruct (Js.split x) as [|f [|g fs]]; [done| |]; reflexivity.
Qed.

Lemma endOf_take x y :
  take (line (endOf x)) (Js.split (x +:+ y)) = removelast (Js.split x).
Proof.
  rewrite split_app. simpl.
  by rewrite take_app_length' by (by rewrite length_removelast).
Qed.

Lemma endOf_lookup x y :
  Js.split (x +:+ y) !! line (endOf x)
  = Some (List.last (Js.split x) "" +:+ hd "" (Js.split y)).
Proof.
  rewrite split_app. simpl.
  rewrite lookup_app_r by (rewrite length_removelast; lia).
  by rewrite length_removelast, Nat.sub_diag.
Qed.

Lemma endOf_drop x y :
  drop (S (line (endOf x))) (Js.split (x +:+ y)) = tl (Js.split y).
Proof.
  rewrite split_app. simpl.
  pose proof (split_length_pos x).
  rewrite drop_app_ge by (rewrite length_removelast; lia).
  rewrite length_removelast.
  by replace (S (length (Js.split x) - 1) - (length (Js.split x) - 1)) with 1
    by lia.
Qed.

(** The end of a text cuts what follows it from it. *)
Lemma textBefore_endOf x y : textBefore (Js.split (x +:+ y)) (endOf x) = x.
Proof.
  unfold textBefore. rewrite endOf_take, endOf_lookup.
  simpl. rewrite substring_to_app_length.
  rewrite <- app_removelast_last by apply split_nonempty.
  apply join_split.
Qed.

Lemma textAfter_endOf x y : textAfter (Js.split (x +:+ y)) (endOf x) = y.
Proof.
  unfold textAfter. rewrite endOf_drop, endOf_lookup.
  simpl. rewrite substring_from_app_length.
  pose proof (split_nonempty y) as Hy.
  transitivity (Js.join (Js.split y)); [|apply join_split].
  by destruct (Js.split y).
Qed.

Lemma within_endOf x y : within (Js.split (x +:+ y)) (endOf x).
Proof.
  unfold within. rewrite endOf_lookup. split.
  - apply lookup_lt_is_Some. rewrite endOf_lookup. eauto.
  - simpl. rewrite string_length_app. lia.
Qed.

(** The text before the position of an offset is the text up to the
    offset; the text after it is the rest. *)
Lemma textBefore_positionAt s n :
  textBefore (Js.split s) (positionAt s n) = Js.substring_to n s.
Proof.
  rewrite <- (substring_to_from n s) at 1. apply textBefore_endOf.
Qed.

Lemma textAfter_positionAt s n :
  textAfter (Js.split s) (positionAt s n) = Js.substring_from n s.
Proof.
  rewrite <- (substring_to_from n s) at 1. apply textAfter_endOf.
Qed.

Lemma within_positionAt s n : within (Js.split s) (positionAt s n).
Proof.
  rewrite <- (substring_to_from n s) at 1. apply within_endOf.
Qed.

(** The end of a text is not after the end of the text with more put
    behind it. *)
Lemma endOf_le x z : posLe (endOf x) (endOf (x +:+ z)).
Proof.
  unfold endOf, posLe. rewrite split_app. simpl.
  rewrite last_app_cons, length_app, length_removelast. simpl.
  pose proof (split_length_pos x).
  destruct (tl (Js.split z)) as [|f fs] eqn:Htl.
  - right. simpl. rewrite string_length_app. lia.
  - left. simpl. lia.
Qed.

(** Positions follow offsets. *)
Lemma positionAt_le s n m :
  n <= m -> posLe (positionAt s n) (positionAt s m).
Proof.
  intros Hnm. unfold positionAt.
  rewrite <- (substring_to_from n (Js.substring_to m s)).
  rewrite substring_to_to by done. apply endOf_le.
Qed.

Lemma cutOf_editAt s c :
  from c <= to c -> to c <= String.length s ->
  cutOf (Js.split s) (editAt s c) = c.
Proof.
  intros Hft Hto. destruct c as [a b t]. unfold cutOf, editAt. simpl in *.
  rewrite !textBefore_positionAt, !substring_to_length.
  f_equal; lia.
Qed.

Lemma placed_editAt s c :
  from c <= to c -> placed (Js.split s) (editAt s c).
Proof.
  intros Hft. split; [by apply positionAt_le|].
  split; apply within_positionAt.
Qed.

(** Replacements that are apart, as a list: each within the text, each
    ending at or before the start of those listed before it. *)
Lemma cutsApart_sorted s cuts :
  cutsApart s cuts ->
  Forall (fun c => from c <= to c /\ to c <= String.length s) cuts
  /\ StronglySorted (fun c c' => to c' <= from c) cuts.
Proof.
  revert s. induction cuts as [|c rest IH]; intros s; simpl.
  - intros _. split; constructor.
  - intros (Hft & Hto & Hrest).
    destruct (IH _ Hrest) as [Hall Hsorted].
    rewrite substring_to_length in Hall.
    split; constructor; try done.
    + eapply Forall_impl; [exact Hall|]. simpl. lia.
    + eapply Forall_impl; [exact Hall|]. simpl. lia.
Qed.

(** A sorted array is its own sort. *)
Lemma sort_sorted_id {A} (cmp : A -> A -> Z) l :
  StronglySorted (fun a b => (cmp a b <= 0)%Z) l -> sort cmp l = l.
Proof.
  induction 1 as [|x l Hl IH Hx]; [done|].
  simpl. rewrite IH. destruct Hx as [|y l' Hxy _]; [done|].
  simpl. by rewrite (proj2 (Z.leb_le _ _) Hxy).
Qed.

Lemma sortedEdits_sorted_id edits_ :
  StronglySorted startsAtOrAfter edits_ -> sortedEdits edits_ = edits_.
Proof.
  intros Hs. apply sort_sorted_id.
  eapply StronglySorted_weaken; [|exact Hs].
  intros a b. apply compareEdits_le.
Qed.

(** Edits that are exact and end before those applied before them are in
    the order of the sort. *)
Lemma endsBefore_sorted lines edits_ :
  Forall (placed lines) edits_ ->
  StronglySorted endsBefore edits_ ->
  StronglySorted startsAtOrAfter edits_.
Proof.
  intros Hplaced. induction 1 as [|e rest Hrest IH Hchain].
  - constructor.
  - inversion Hplaced as [|? ? He Hprest]; subst.
    constructor; [by apply IH|].
    rewrite Forall_forall in *. intros e' He'.
    unfold startsAtOrAfter. eapply posLe_trans; [|apply (Hchain e' He')].
    by destruct (Hprest e' He').
Qed.

(** The edits of replacements that are apart in a text are exact, apart
    and in the order of the sort, and they are those replacements. *)
Lemma editAt_cuts s cuts :
  cutsApart s cuts ->
  Forall (placed (Js.split s)) (map (editAt s) cuts)
  /\ StronglySorted endsBefore (map (editAt s) cuts)
  /\ map (cutOf (Js.split s)) (map (editAt s) cuts) = cuts.
Proof.
  intros Hwf. destruct (cutsApart_sorted s cuts Hwf) as [Hall Hsorted].
  clear Hwf. induction Hsorted as [|c rest Hrest IH Hc].
  - repeat split; constructor.
  - inversion Hall as [|? ? [Hft Hto] Harest]; subst.
    destruct (IH Harest) as (IHp & IHs & IHc).
    simpl. split; [|split].
    + constructor; [by apply placed_editAt|done].
    + constructor; [done|].
      rewrite Forall_map. eapply Forall_impl; [exact Hc|].
      intros c' Hc'. unfold endsBefore. simpl. by apply positionAt_le.
    + by rewrite cutOf_editAt, IHc.
Qed.


(** ** The batch as a whole, and its logical inverse *)

(** Sorted, in range, pairwise apart and with distinct starts, the edits of
    a batch each end at or before the start of those applied before. *)
Lemma endsBefore_of_apart edits_ :
  StronglySorted startsAtOrAfter edits_ ->
  ForallOrdPairs nonOverlapping edits_ ->
  ForallOrdPairs distinctStarts edits_ ->
  Forall (fun edit => posLe (start (range edit)) (end_ (range edit))) edits_ ->
  StronglySorted endsBefore edits_.
Proof.
  induction 1 as [|e rest Hrest IH Hsorted]; intros Hapart Hdistinct Hranges.
  - constructor.
  - inversion Hapart as [|? ? Hae Harest]; subst.
    inversion Hdistinct as [|? ? Hde Hdrest]; subst.
    inversion Hranges as [|? ? Hre Hrrest]; subst.
    constructor; [by apply IH|].
    rewrite Forall_forall in *. intros e' He'.
    specialize (Hsorted e' He'). specialize (Hae e' He').
    specialize (Hde e' He').
    unfold endsBefore. destruct Hae as [Hfirst|Hsecond]; [|done].
    exfalso. apply Hde.
    unfold startsAtOrAfter, posLe in *.
    destruct (start (range e)) as [l c], (start (range e')) as [l' c'].
    simpl in *. f_equal; lia.
Qed.

Lemma sortedEdits_endsBefore lines edits :
  Forall (placed lines) edits ->
  ForallOrdPairs nonOverlapping edits ->
  ForallOrdPairs distinctStarts edits ->
  StronglySorted endsBefore (sortedEdits edits).
Proof.
  intros Hplaced Hapart Hdistinct. apply endsBefore_of_apart.
  - apply sortedEdits_sorted.
  - eapply ForallOrdPairs_perm; [|symmetry; apply sortedEdits_perm|done].
    unfold nonOverlapping. tauto.
  - eapply ForallOrdPairs_perm; [|symmetry; apply sortedEdits_perm|done].
    unfold distinctStarts. congruence.
  - eapply Permutation_Forall; [symmetry; apply sortedEdits_perm|].
    eapply Forall_impl; [exact Hplaced|]. by intros e (? & _).
Qed.

(** A batch of exact edits, each ending before those applied before it,
    does to the content what its replacements by offsets do. *)
Lemma patchContent_cuts content edits :
  Forall (placed (Js.split content)) edits ->
  StronglySorted endsBefore (sortedEdits edits) ->
  patchContent content edits
  = Ok (applyCuts content
          (map (cutOf (Js.split content)) (sortedEdits edits))).
Proof.
  intros Hplaced Hchain.
  assert (Forall (placed (Js.split content)) (sortedEdits edits)) as Hplaced'
    by (eapply Permutation_Forall; [symmetry; apply sortedEdits_perm|done]).
  destruct (applyEdits_cuts (Js.split content) (sortedEdits edits)
              (Js.split content)) as (lines' & Hrun & Htext);
    [apply split_noLF|done|done| |].
  - eapply Forall_impl; [exact Hplaced'|].
    intros e (_ & _ & Hwe). apply agree_refl. by destruct Hwe.
  - unfold patchContent. rewrite Hrun, Htext. by rewrite join_split.
Qed.

(** Round trip with logical inverses: a batch of exact edits, pairwise
    apart and with distinct starts, is undone by the batch of its logical
    inverses. *)
Lemma logicalInverse_round_trip content edits :
  Forall (placed (Js.split content)) edits ->
  ForallOrdPairs nonOverlapping edits ->
  ForallOrdPairs distinctStarts edits ->
  exists post,
    patchContent content edits = Ok post
    /\ patchContent post (logicalInverse content edits) = Ok content.
Proof.
  intros Hplaced Hapart Hdistinct.
  assert (Forall (placed (Js.split content)) (sortedEdits edits)) as Hplaced'
    by (eapply Permutation_Forall; [symmetry; apply sortedEdits_perm|done]).
  assert (StronglySorted endsBefore (sortedEdits edits)) as Hchain
    by (by eapply sortedEdits_endsBefore).
  set (cuts := map (cutOf (Js.split content)) (sortedEdits edits)).
  exists (applyCuts content cuts).
  split; [by apply patchContent_cuts|].
  assert (cutsApart content cuts) as Hwf.
  { rewrite <- (join_split content) at 1. by apply cutsApart_edits. }
  destruct (inverseCuts_round_trip content cuts Hwf) as [Hiwf Hback].
  destruct (editAt_cuts _ _ Hiwf) as (Hip & His & Hic).
  unfold logicalInverse. fold cuts.
  set (post := applyCuts content cuts) in *.
  set (inverse := map (editAt post) (inverseCuts content cuts)) in *.
  assert (sortedEdits inverse = inverse) as Hsorted
    by (eapply sortedEdits_sorted_id, endsBefore_sorted; eauto).
  rewrite patchContent_cuts by (done || by rewrite Hsorted).
  by rewrite Hsorted, Hic, Hback.
Qed.

(** What the inverse replacements are: each brings back the text its
    replacement took out of the original, and spans, in the text produced,
    the text its replacement put in. *)
Lemma inverseCuts_spans s cuts :
  cutsApart s cuts ->
  Forall2 (fun c c' =>
             to c <= String.length s
             /\ text c' = Js.substring_from (from c) (Js.substring_to (to c) s)
             /\ from c' <= to c'
             /\ to c' <= String.length (applyCuts s cuts)
             /\ Js.substring_from (from c')
                  (Js.substring_to (to c') (applyCuts s cuts))
                = text c)
    cuts (inverseCuts s cuts).
Proof.
  revert s. induction cuts as [|c rest IH]; intros s Hwf; [constructor|].
  rewrite applyCuts_cons by done.
  destruct Hwf as (Hft & Hto & Hrest).
  specialize (IH _ Hrest).
  set (front := applyCuts (Js.substring_to (from c) s) rest) in *.
  cbn [inverseCuts]. fold front. constructor.
  - cbn [from to text]. split; [done|]. split; [done|]. split; [lia|].
    split; [rewrite !string_length_app; lia|].
    rewrite <- string_app_assoc, <- string_length_app.
    rewrite substring_to_app_length. apply substring_from_app_length.
  - eapply Forall2_impl; [exact IH|].
    intros c1 c1' (Hto1 & Htext & Hft' & Hbound & Hspan).
    rewrite substring_to_length in Hto1.
    split; [lia|].
    split; [by rewrite substring_to_to in Htext by lia|].
    split; [done|].
    rewrite string_length_app. split; [lia|].
    by rewrite substring_to_app by done.
Qed.

Lemma textBefore_prefix lines p :
  line p < length lines ->
  Js.substring_to (String.length (textBefore lines p)) (Js.join lines)
  = textBefore lines p.
Proof.
  intros Hp. rewrite <- (textBefore_textAfter lines p) at 1 by done.
  apply substring_to_app_length.
Qed.

Lemma Forall2_map {A B C D} (P : C -> D -> Prop) (f : A -> C) (g : B -> D)
    l k :
  Forall2 P (map f l) (map g k) <-> Forall2 (fun a b => P (f a) (g b)) l k.
Proof.
  split.
  - revert k. induction l as [|a l IH]; intros [|b k]; simpl;
      inversion 1; subst; constructor; auto.
  - induction 1; simpl; constructor; auto.
Qed.

Lemma Forall2_and_l {A B} (P : A -> B -> Prop) (Q : A -> Prop) l k :
  Forall2 P l k -> Forall Q l -> Forall2 (fun a b => P a b /\ Q a) l k.
Proof.
  induction 1; inversion 1; subst; constructor; auto.
Qed.

(** The logical inverses, edit by edit, in the order of application: the
    new text of the inverse is the text of the original content in the range
    of the edit, and the range of the inverse holds, in the content after
    the batch, the new text of the edit. *)
Lemma logicalInverse_spans content edits :
  Forall (placed (Js.split content)) edits ->
  StronglySorted endsBefore (sortedEdits edits) ->
  Forall2 (fun edit inverse =>
             newText inverse
             = textBetween (Js.split content)
                 (start (range edit)) (end_ (range edit))
             /\ textBetween
                  (Js.split (applyCuts content
                     (map (cutOf (Js.split content)) (sortedEdits edits))))
                  (start (range inverse)) (end_ (range inverse))
                = newText edit)
    (sortedEdits edits) (logicalInverse content edits).
Proof.
  intros Hplaced Hchain.
  assert (Forall (placed (Js.split content)) (sortedEdits edits)) as Hplaced'
    by (eapply Permutation_Forall; [symmetry; apply sortedEdits_perm|done]).
  unfold logicalInverse.
  set (cuts := map (cutOf (Js.split content)) (sortedEdits edits)).
  assert (cutsApart content cuts) as Hwf.
  { rewrite <- (join_split content) at 1. by apply cutsApart_edits. }
  pose proof (inverseCuts_spans content cuts Hwf) as Hspans.
  set (post := applyCuts content cuts) in *.
  rewrite <- (map_id (inverseCuts content cuts)) in Hspans.
  unfold cuts in Hspans at 1. apply Forall2_map in Hspans.
  rewrite <- (map_id (sortedEdits edits)) at 1. apply Forall2_map.
  eapply Forall2_impl; [exact (Forall2_and_l _ _ _ _ Hspans Hplaced')|].
  clear Hspans. simpl.
  intros e c' ((Hto & Htext & Hft' & Hbound & Hspan) & (Hse & Hws & Hwe)).
  unfold textBetween, editAt. simpl. split.
  - rewrite Htext. f_equal.
    pose proof (textBefore_prefix (Js.split content) (end_ (range e))
                  (proj1 Hwe)) as Hprefix.
    by rewrite join_split in Hprefix.
  - rewrite !textBefore_positionAt, substring_to_length.
    by rewrite Nat.min_l by lia.
Qed.

(** ** Runs of the engine *)

Section Runs.
Context {FS : Type} `{FileSystem FS}.

Lemma world_eta (w : World FS) : mkWorld (files w) (calls w) (logs w) = w.
Proof. by destruct w. Qed.

Lemma forOf_log {A} (f : A -> string) (xs : list A) (w : World FS) :
  forOf xs (fun x => log (f x)) w
  = (Ok tt, mkWorld (files w) (calls w) (logs w ++ map f xs)).
Proof.
  revert w. induction xs as [|x xs IH]; intros w; simpl.
  - unfold ret. by rewrite app_nil_r, world_eta.
  - unfold bind, log at 1. rewrite IH. simpl. by rewrite <- app_assoc.
Qed.

(** A preview of a batch only logs. *)
Lemma applyTextEdits_dryRun filePath edits (w : World FS) :
  applyTextEdits filePath edits true w
  = (Ok (length edits),
     mkWorld (files w) (calls w) (logs w ++ previewLines filePath edits)).
Proof.
  unfold applyTextEdits. destruct edits as [|e es].
  - simpl. unfold ret. by rewrite app_nil_r, world_eta.
  - change (Nat.eqb (length (e :: es)) 0) with false. cbv iota.
    unfold bind at 1. unfold log at 1. cbv iota beta.
    unfold bind. rewrite forOf_log. simpl. unfold ret.
    by rewrite <- app_assoc.
Qed.

(** A real run of a batch reads the file, patches its content and writes
    the result back. *)
Lemma applyTextEdits_run filePath edits (w : World FS) content :
  edits <> [] ->
  fs_text (files w) filePath = Fulfilled content ->
  applyTextEdits filePath edits false w
  = let w1 := mkWorld (files w) (calls w ++ [CallText filePath])
                (logs w ++ [batchHeader false filePath edits]) in
    match patchContent content edits with
    | Throw e => (Throw e, w1)
    | Ok post =>
        match fs_write (files w) filePath post with
        | Fulfilled fs' =>
            (Ok (length edits),
             mkWorld fs' (calls w1 ++ [CallWrite filePath post]) (logs w1))
        | Rejected reason =>
            (Throw (FsFailure reason),
             mkWorld (files w) (calls w1 ++ [CallWrite filePath post]) (logs w1))
        end
    end.
Proof.
  intros Hne Htext. unfold applyTextEdits.
  destruct edits as [|e es]; [done|].
  change (Nat.eqb (length (e :: es)) 0) with false. cbv iota.
  unfold bind at 1. unfold log at 1. cbv iota beta.
  unfold bind at 1. unfold readText at 1. simpl files. rewrite Htext.
  cbv iota beta zeta. unfold patchContent.
  destruct (applyEdits (Js.split content) (sortedEdits (e :: es))) as [ls|x].
  - unfold bind, writeFile, mutate. simpl files.
    destruct (fs_write (files w) filePath (Js.join ls)); reflexivity.
  - reflexivity.
Qed.

(** A batch that returns has counted its edits. *)
Lemma applyTextEdits_value filePath edits dryRun (w w' : World FS) n :
  applyTextEdits filePath edits dryRun w = (Ok n, w') -> n = length edits.
Proof.
  destruct dryRun.
  - rewrite applyTextEdits_dryRun. by intros [= <- _].
  - unfold applyTextEdits. destruct edits as [|e es].
    + simpl. by intros [= <- _].
    + change (Nat.eqb (length (e :: es)) 0) with false. cbv iota.
      unfold bind, log, readText, writeFile, mutate, throw, ret. simpl files.
      destruct (fs_text _ _); [|done].
      destruct (applyEdits _ _); [|done].
      destruct (fs_write _ _ _); [|done].
      by intros [= <- _].
Qed.

End Runs.

(** ** File operations *)

Section Operations.
Context {FS : Type} `{FileSystem FS}.
Variable urlToFilePath : string -> string.

Ltac unfold_operation :=
  unfold applyFileOperation, lacksLocation, falsy, knownKind;
  repeat case_decide;
  repeat match goal with
         | |- context [truthy ?v] => destruct (truthy v)
         end;
  simpl.

(** A kind without a case in the switch: nothing happens. *)
Lemma applyFileOperation_unknown operation dryRun (w : World FS) :
  ~ knownKind (kind operation) ->
  applyFileOperation urlToFilePath operation dryRun w = (Ok tt, w).
Proof. unfold_operation; intros Hk; try reflexivity; exfalso; tauto. Qed.

(** A missing location throws at once: the world is as it was. *)
Lemma applyFileOperation_lacks operation dryRun (w : World FS) :
  lacksLocation operation = true ->
  exists message,
    applyFileOperation urlToFilePath operation dryRun w
    = (Throw (JsError message), w).
Proof. unfold_operation; intros Hl; try discriminate; eauto. Qed.

(** With its locations, a previewed operation logs one line and returns. *)
Lemma applyFileOperation_dryRun operation (w : World FS) :
  lacksLocation operation = false ->
  exists lines,
    applyFileOperation urlToFilePath operation true w
    = (Ok tt, mkWorld (files w) (calls w) (logs w ++ lines)).
Proof.
  unfold_operation; intros Hl; try discriminate;
    try (by eexists [_]);
    exists []; unfold ret; by rewrite app_nil_r, world_eta.
Qed.


End Operations.

(** ** The loops of [applyWorkspaceEdit] *)

Section Loops.
Context {FS : Type} `{FileSystem FS}.
Variable urlToFilePath : string -> string.
Variable relativeToCwd : string -> string.

Local Abbreviation entry := (entryOf urlToFilePath relativeToCwd).
Local Abbreviation runChanges := (applyDocumentChanges urlToFilePath relativeToCwd).
Local Abbreviation runLegacy := (applyLegacyChanges urlToFilePath relativeToCwd).

(** The loop runs the entries one after the other and stops at the first
    that throws. *)
Lemma applyDocumentChanges_app pre post dryRun results (w : World FS) :
  runChanges (pre ++ post) dryRun results w
  = match runChanges pre dryRun results w with
    | (Ok results', w') => runChanges post dryRun results' w'
    | (Throw e, w') => (Throw e, w')
    end.
Proof.
  revert results w. induction pre as [|[op|u es] pre IH]; intros results w.
  - reflexivity.
  - simpl. unfold bind.
    destruct (applyFileOperation urlToFilePath op dryRun w) as [[[]|e] w'];
      [apply IH|reflexivity].
  - simpl. unfold bind.
    destruct (applyTextEdits (urlToFilePath u) es dryRun w) as [[n|e] w'];
      [apply IH|reflexivity].
Qed.

(** What the loops return: one entry per batch, behind what was there. *)
Lemma applyDocumentChanges_results changes_ dryRun results (w w' : World FS) rs :
  runChanges changes_ dryRun results w = (Ok rs, w') ->
  rs = results ++ map entry (omap batchOf changes_).
Proof.
  revert results w.
  induction changes_ as [|[op|u es] rest IH]; intros results w; simpl.
  - intros [= <- _]. by rewrite app_nil_r.
  - unfold bind.
    destruct (applyFileOperation urlToFilePath op dryRun w) as [[[]|e] w1];
      [apply IH|done].
  - unfold bind.
    destruct (applyTextEdits (urlToFilePath u) es dryRun w) as [[n|e] w1] eqn:E;
      [|done].
    apply applyTextEdits_value in E as ->.
    intros Hrun. apply IH in Hrun as ->. by rewrite <- app_assoc.
Qed.

Lemma applyLegacyChanges_results entries dryRun results (w w' : World FS) rs :
  runLegacy entries dryRun results w = (Ok rs, w') ->
  rs = results ++ map entry entries.
Proof.
  revert results w.
  induction entries as [|[u es] rest IH]; intros results w; simpl.
  - intros [= <- _]. by rewrite app_nil_r.
  - unfold bind.
    destruct (applyTextEdits (urlToFilePath u) es dryRun w) as [[n|e] w1] eqn:E;
      [|done].
    apply applyTextEdits_value in E as ->.
    intros Hrun. apply IH in Hrun as ->. by rewrite <- app_assoc.
Qed.

(** A previewed operation leaves the files alone and calls nothing. *)
Lemma applyFileOperation_preview_frame operation (w : World FS) :
  files (snd (applyFileOperation urlToFilePath operation true w)) = files w
  /\ calls (snd (applyFileOperation urlToFilePath operation true w)) = calls w.
Proof.
  destruct (lacksLocation operation) eqn:Hl.
  - destruct (applyFileOperation_lacks urlToFilePath operation true w Hl)
      as [m ->]. done.
  - destruct (applyFileOperation_dryRun urlToFilePath operation w Hl)
      as [ls ->]. done.
Qed.

(** So do the previewed loops. *)
Lemma applyDocumentChanges_preview_frame changes_ results (w : World FS) :
  files (snd (runChanges changes_ true results w)) = files w
  /\ calls (snd (runChanges changes_ true results w)) = calls w.
Proof.
  revert results w.
  induction changes_ as [|[op|u es] rest IH]; intros results w; simpl.
  - done.
  - unfold bind.
    pose proof (applyFileOperation_preview_frame op w) as [Hf Hc].
    destruct (applyFileOperation urlToFilePath op true w) as [[[]|e] w1];
      simpl in *; [|done].
    destruct (IH results w1) as [Hf' Hc']. split; congruence.
  - unfold bind. rewrite applyTextEdits_dryRun.
    match goal with |- context [runChanges rest true ?r ?w1] =>
      destruct (IH r w1) as [Hf' Hc'] end.
    simpl in *. split; congruence.
Qed.

Lemma applyLegacyChanges_preview (entries : list (string * list TextEdit))
    results (w : World FS) :
  exists lines,
    runLegacy entries true results w
    = (Ok (results ++ map entry entries),
       mkWorld (files w) (calls w) (logs w ++ lines)).
Proof.
  revert results w.
  induction entries as [|[u es] rest IH]; intros results w; simpl.
  - exists []. unfold ret. by rewrite !app_nil_r, world_eta.
  - unfold bind. rewrite applyTextEdits_dryRun.
    match goal with |- context [runLegacy rest true ?r ?w1] =>
      destruct (IH r w1) as [ls ->] end.
    simpl. eexists. by rewrite <- !app_assoc.
Qed.

(** A preview whose operations all have their locations returns, with an
    entry per batch. *)
Lemma applyDocumentChanges_preview changes_ results (w : World FS) :
  Forall (fun operation => lacksLocation operation = false)
    (omap operationOf changes_) ->
  exists lines,
    runChanges changes_ true results w
    = (Ok (results ++ map entry (omap batchOf changes_)),
       mkWorld (files w) (calls w) (logs w ++ lines)).
Proof.
  revert results w.
  induction changes_ as [|[op|u es] rest IH]; intros results w; simpl.
  - intros _. exists []. unfold ret. by rewrite !app_nil_r, world_eta.
  - inversion 1 as [|? ? Hop Hrest]; subst. unfold bind.
    destruct (applyFileOperation_dryRun urlToFilePath op w Hop) as [l1 ->].
    destruct (IH results (mkWorld (files w) (calls w) (logs w ++ l1)) Hrest)
      as [l2 ->].
    simpl. eexists. by rewrite <- app_assoc.
  - intros Hrest. unfold bind. rewrite applyTextEdits_dryRun.
    match goal with |- context [runChanges rest true ?r ?w1] =>
      destruct (IH r w1 Hrest) as [ls ->] end.
    simpl. eexists. by rewrite <- !app_assoc.
Qed.

End Loops.

(** ** The order of application *)

(** What a real run asks of the filesystem when the patch succeeds: one
    read, then one write of the patched content. *)
Lemma applyTextEdits_calls {FS} `{FileSystem FS} filePath edits
    (w : World FS) content post :
  edits <> [] ->
  fs_text (files w) filePath = Fulfilled content ->
  patchContent content edits = Ok post ->
  calls (snd (applyTextEdits filePath edits false w))
  = calls w ++ [CallText filePath; CallWrite filePath post].
Proof.
  intros Hne Htext Hpatch.
  rewrite (applyTextEdits_run filePath edits w content Hne Htext).
  cbv zeta. rewrite Hpatch.
  destruct (fs_write (files w) filePath post); simpl; by rewrite <- app_assoc.
Qed.

(** C1: applyTextEdits sorts every batch by descending start line, ties by
    descending start character, and applies the edits in that order: the
    sorted array is a permutation of the batch, each of its edits starts at
    or after all that follow it, and the content written back is the join of
    the lines obtained by applying the sorted edits one after the other to
    the split content.  On the lines abc, def, ghi with the edits
    (0,1)-(0,2) to X and (2,0)-(2,1) to Y the result is aXc, def, Yhi: each
    line is what its edit gives when applied alone to the original.  In
    general, for edits with exact ranges, pairwise apart and with distinct
    starts, every edit replaces the text between the offsets that its range
    has in the original content. *)
Theorem C1_edits_applied_bottom_to_top {FS} `{FileSystem FS}
    (filePath : string) (edits : list TextEdit) (w : World FS) :
  Permutation (sortedEdits edits) edits
  /\ StronglySorted startsAtOrAfter (sortedEdits edits)
  /\ (forall content lines',
        edits <> [] ->
        fs_text (files w) filePath = Fulfilled content ->
        applyEdits (Js.split content) (sortedEdits edits) = Ok lines' ->
        calls (snd (applyTextEdits filePath edits false w))
        = calls w ++ [CallText filePath; CallWrite filePath (Js.join lines')])
  /\ (let original := ["abc"; "def"; "ghi"] in
      let editX := mkEdit 0 1 0 2 "X" in
      let editY := mkEdit 2 0 2 1 "Y" in
      sortedEdits [editX; editY] = [editY; editX]
      /\ applyEdits original (sortedEdits [editX; editY])
         = Ok ["aXc"; "def"; "Yhi"]
      /\ patchContent (Js.join original) [editX; editY]
         = Ok (Js.join ["aXc"; "def"; "Yhi"])
      /\ applyEdit original editX = Ok ["aXc"; "def"; "ghi"]
      /\ applyEdit original editY = Ok ["abc"; "def"; "Yhi"])
  /\ (forall content,
        Forall (placed (Js.split content)) edits ->
        ForallOrdPairs nonOverlapping edits ->
        ForallOrdPairs distinctStarts edits ->
        patchContent content edits
        = Ok (applyCuts content
                (map (cutOf (Js.split content)) (sortedEdits edits)))).
Proof.
  split; [apply sortedEdits_perm|].
  split; [apply sortedEdits_sorted|].
  split; [|split; [by repeat split|]].
  - intros content lines' Hne Htext Hlines.
    apply (applyTextEdits_calls filePath edits w content); [done..|].
    unfold patchContent. by rewrite Hlines.
  - intros content Hplaced Hapart Hdistinct.
    apply patchContent_cuts; [done|by eapply sortedEdits_endsBefore].
Qed.

(** C1 on the file of the example, held in memory. *)
Lemma C1_edits_applied_bottom_to_top_witness :
  let fs : MemFs.t := {[ "/f" := Js.join ["abc"; "def"; "ghi"] ]} in
  let edits := [mkEdit 0 1 0 2 "X"; mkEdit 2 0 2 1 "Y"] in
  StronglySorted startsAtOrAfter (sortedEdits edits)
  /\ calls (snd (applyTextEdits "/f" edits false (MemFs.world fs)))
     = [CallText "/f"; CallWrite "/f" (Js.join ["aXc"; "def"; "Yhi"])].
Proof.
  pose proof (C1_edits_applied_bottom_to_top "/f"
    [mkEdit 0 1 0 2 "X"; mkEdit 2 0 2 1 "Y"]
    (MemFs.world {[ "/f" := Js.join ["abc"; "def"; "ghi"] ]}))
    as (_ & Hsorted & Hcalls & _ & _).
  split; [exact Hsorted|].
  exact (Hcalls (Js.join ["abc"; "def"; "ghi"]) ["aXc"; "def"; "Yhi"]
           ltac:(discriminate) eq_refl eq_refl).
Defined.

(** ** Multi-line edits and the frame of an edit *)

(** C2: a multi-line edit whose range lies in the document (start line
    before end line, both lines present) replaces the lines from the start
    line to the end line, both included, by the split of: the start line up
    to the start character, the new text, the end line from the end
    character.  In a real run on a file with that content this is what is
    written back; and one, two, three with (0,3)-(2,0) to X, line feed, Y
    becomes oneX, Ythree. *)
Theorem C2_multi_line_splice {FS} `{FileSystem FS}
    (filePath : string) (edit : TextEdit) (w : World FS)
    (content startLine endLine : string) :
  line (start (range edit)) < line (end_ (range edit)) ->
  Js.split content !! line (start (range edit)) = Some startLine ->
  Js.split content !! line (end_ (range edit)) = Some endLine ->
  fs_text (files w) filePath = Fulfilled content ->
  let lines := Js.split content in
  let newLines :=
    Js.split (Js.substring_to (character (start (range edit))) startLine
              +:+ newText edit
              +:+ Js.substring_from (character (end_ (range edit))) endLine) in
  let lines' :=
    take (line (start (range edit))) lines
    ++ newLines ++ drop (S (line (end_ (range edit)))) lines in
  applyEdit lines edit = Ok lines'
  /\ calls (snd (applyTextEdits filePath [edit] false w))
     = calls w ++ [CallText filePath; CallWrite filePath (Js.join lines')]
  /\ Js.split (Js.join lines') = lines'
  /\ patchContent (Js.join ["one"; "two"; "three"])
       [mkEdit 0 3 2 0 (Js.join ["X"; "Y"])]
     = Ok (Js.join ["oneX"; "Ythree"]).
Proof.
  intros Hlt Hs He Htext lines newLines lines'.
  assert (applyEdit lines edit = Ok lines') as Happly
    by (by apply applyEdit_multi).
  split; [done|]. split; [|split; [|reflexivity]].
  - apply (applyTextEdits_calls filePath [edit] w content); [done..|].
    unfold patchContent. rewrite sortedEdits_singleton. simpl.
    fold lines. by rewrite Happly.
  - assert (lines' <> []) as Hne.
    { intros Hnil. apply (f_equal length) in Hnil.
      unfold lines' in Hnil. rewrite !length_app in Hnil.
      pose proof (split_length_pos
        (Js.substring_to (character (start (range edit))) startLine
         +:+ newText edit
         +:+ Js.substring_from (character (end_ (range edit))) endLine)).
      simpl in Hnil. unfold newLines in Hnil. lia. }
    rewrite split_join by done. apply concat_split_noLF.
    unfold lines', lines, newLines. rewrite !Forall_app.
    pose proof (split_noLF content) as Hc.
    split; [by apply Forall_take|]. split; [apply split_noLF|].
    by apply Forall_drop.
Qed.

(** C2 on the file of the example, held in memory. *)
Lemma C2_multi_line_splice_witness :
  let content := Js.join ["one"; "two"; "three"] in
  let edit := mkEdit 0 3 2 0 (Js.join ["X"; "Y"]) in
  applyEdit (Js.split content) edit = Ok ["oneX"; "Ythree"]
  /\ calls (snd (applyTextEdits "/f" [edit] false
                   (MemFs.world {[ "/f" := content ]})))
     = [CallText "/f"; CallWrite "/f" (Js.join ["oneX"; "Ythree"])].
Proof.
  pose proof (C2_multi_line_splice "/f" (mkEdit 0 3 2 0 (Js.join ["X"; "Y"]))
    (MemFs.world {[ "/f" := Js.join ["one"; "two"; "three"] ]})
    (Js.join ["one"; "two"; "three"]) "one" "three"
    ltac:(simpl; lia) ltac:(reflexivity) ltac:(reflexivity) ltac:(reflexivity))
    as (Happly & Hcalls & _).
  split; [exact Happly|exact Hcalls].
Defined.

(** C9: one edit whose range lies in the document leaves every line before
    its start line as it was and where it was, and every line after its end
    line as it was, moved by the change in the number of lines; the lines of
    the file after the edit are those before the start line, the split of
    the spliced text, and those after the end line.  A real run writes that
    content. *)
Theorem C9_lines_outside_range_kept {FS} `{FileSystem FS}
    (filePath : string) (content : string) (edit : TextEdit) (w : World FS) :
  inBounds (Js.split content) edit ->
  fs_text (files w) filePath = Fulfilled content ->
  exists post,
    patchContent content [edit] = Ok post
    /\ calls (snd (applyTextEdits filePath [edit] false w))
       = calls w ++ [CallText filePath; CallWrite filePath post]
    /\ (forall i, i < line (start (range edit)) ->
          Js.split post !! i = Js.split content !! i)
    /\ (forall i, line (end_ (range edit)) < i ->
          Js.split post
            !! (i + length (Js.split post) - length (Js.split content))
          = Js.split content !! i)
    /\ Js.split post
       = take (line (start (range edit))) (Js.split content)
         ++ Js.split (spliced (Js.split content) edit)
         ++ drop (S (line (end_ (range edit)))) (Js.split content).
Proof.
  intros Hb Htext.
  destruct (applyEdit_inBounds _ _ Hb) as (lines' & Happly & _ & _ & Hsplit).
  pose proof (inBounds_lines _ _ Hb) as [Hse He].
  pose proof (split_noLF content) as Hc.
  rewrite !concat_split_noLF in Hsplit
    by (by apply Forall_take || by apply Forall_drop).
  assert (patchContent content [edit] = Ok (Js.join lines')) as Hpatch.
  { unfold patchContent. rewrite sortedEdits_singleton. simpl.
    by rewrite Happly. }
  exists (Js.join lines'). split; [done|].
  split; [by apply (applyTextEdits_calls filePath [edit] w content)|].
  rewrite Hsplit. split; [|split; [|done]].
  - intros i Hi. rewrite lookup_app_l by (rewrite length_take; lia).
    apply lookup_take_lt. lia.
  - intros i Hi. rewrite !length_app, length_take, length_drop.
    rewrite lookup_app_r by (rewrite length_take; lia).
    rewrite lookup_app_r by (rewrite length_take; lia).
    rewrite lookup_drop. f_equal. rewrite length_take. lia.
Qed.

(** C9 on a five-line file whose middle lines are replaced by one. *)
Lemma C9_lines_outside_range_kept_witness :
  let content := Js.join ["a"; "bcd"; "e"; "fgh"; "i"] in
  let edit := mkEdit 1 1 3 2 "-" in
  exists post,
    patchContent content [edit] = Ok post
    /\ Js.split post !! 0 = Some "a"
    /\ Js.split post !! (4 + length (Js.split post) - 5) = Some "i".
Proof.
  destruct (C9_lines_outside_range_kept "/f"
    (Js.join ["a"; "bcd"; "e"; "fgh"; "i"]) (mkEdit 1 1 3 2 "-")
    (MemFs.world {[ "/f" := Js.join ["a"; "bcd"; "e"; "fgh"; "i"] ]})
    ltac:(split; [left; simpl; lia|simpl; lia]) ltac:(reflexivity))
    as (post & Hpatch & _ & Hbefore & Hafter & _).
  exists post. split; [exact Hpatch|]. split.
  - exact (Hbefore 0 ltac:(simpl; lia)).
  - exact (Hafter 4 ltac:(simpl; lia)).
Defined.

(** ** The preview of a batch *)

Lemma StronglySorted_snoc {A} (R : A -> A -> Prop) l x :
  StronglySorted R l -> Forall (fun a => R a x) l ->
  StronglySorted R (l ++ [x]).
Proof.
  induction 1 as [|y l Hl IH Hy]; intros Hx; simpl.
  - repeat constructor.
  - inversion Hx; subst. constructor; [auto|].
    rewrite Forall_app. split; [done|]. by repeat constructor.
Qed.

(** Reversing a sorted array sorts it the other way round. *)
Lemma StronglySorted_rev {A} (R : A -> A -> Prop) l :
  StronglySorted R l -> StronglySorted (fun a b => R b a) (rev l).
Proof.
  induction 1 as [|x l Hl IH Hx]; simpl; [constructor|].
  apply StronglySorted_snoc; [done|].
  apply List.Forall_forall. intros a Ha. apply in_rev in Ha.
  revert a Ha. by apply List.Forall_forall.
Qed.

(** C3, as the claim states it, fails: for an edit on line 0 followed by an
    edit on line 2 the sorted order has the edit of line 2 first, and the
    preview prints the edit of line 0 first. *)
Lemma C3_counterexample :
  let edits := [mkEdit 0 0 0 1 "top"; mkEdit 2 0 2 1 "bottom"] in
  sortedEdits edits = [mkEdit 2 0 2 1 "bottom"; mkEdit 0 0 0 1 "top"]
  /\ logs (snd (applyTextEdits "/f" edits true (MemFs.world ∅)))
     = ["[DRY RUN] Applying 2 edits to /f";
        "  [DRY RUN] 1:0-1:1: " +:+ Js.DQ +:+ "top" +:+ Js.DQ;
        "  [DRY RUN] 3:0-3:1: " +:+ Js.DQ +:+ "bottom" +:+ Js.DQ]
  /\ logs (snd (applyTextEdits "/f" edits true (MemFs.world ∅)))
     <> batchHeader true "/f" edits
        :: map (fun edit => "  [DRY RUN] " +:+ describeEdit edit)
             (sortedEdits edits).
Proof. repeat split. vm_compute. discriminate. Qed.

(** C3, amended: a preview of a batch that is not empty logs the header and
    then one line per edit, with the start line plus one, the start
    character, the end line plus one, the end character and the new text
    between double quotes; the lines come in the reverse of the order of
    application, that is by ascending start position, top to bottom.  It
    returns the number of edits and leaves the files alone. *)
Theorem C3_preview_lists_edits_top_to_bottom {FS} `{FileSystem FS}
    (filePath : string) (first : TextEdit) (others : list TextEdit)
    (w : World FS) :
  let edits := first :: others in
  let run := applyTextEdits filePath edits true w in
  logs (snd run)
  = logs w
    ++ batchHeader true filePath edits
       :: map (fun edit =>
                 "  [DRY RUN] "
                 +:+ pretty (line (start (range edit)) + 1) +:+ ":"
                 +:+ pretty (character (start (range edit))) +:+ "-"
                 +:+ pretty (line (end_ (range edit)) + 1) +:+ ":"
                 +:+ pretty (character (end_ (range edit))) +:+ ": "
                 +:+ Js.DQ +:+ newText edit +:+ Js.DQ)
            (rev (sortedEdits edits))
  /\ Permutation (rev (sortedEdits edits)) edits
  /\ StronglySorted (fun a b => startsAtOrAfter b a) (rev (sortedEdits edits))
  /\ fst run = Ok (length edits)
  /\ files (snd run) = files w
  /\ calls (snd run) = calls w.
Proof.
  intros edits run. unfold run. rewrite applyTextEdits_dryRun.
  cbn [fst snd logs files calls].
  split; [reflexivity|].
  split; [etransitivity;
          [symmetry; apply Permutation_rev|apply (sortedEdits_perm edits)]|].
  split; [apply StronglySorted_rev, sortedEdits_sorted|done].
Qed.

(** ** The plan of a WorkspaceEdit *)

(** C4: when a WorkspaceEdit carries documentChanges, the legacy changes it
    may also carry play no part: applying it, in either mode, is running
    the loop over documentChanges from empty results, whatever the legacy
    mapping holds, so result, files, calls and log are those of the same
    edit without the mapping; and formatting it joins the lines of the
    documentChanges entries only. *)
Theorem C4_document_changes_take_precedence {FS} `{FileSystem FS}
    (urlToFilePath relativeToCwd : string -> string)
    (entries : list DocumentChange)
    (legacy : list (string * list TextEdit))
    (dryRun : bool) (w : World FS) :
  let both := {| documentChanges := Some entries; changes := Some legacy |} in
  let only := {| documentChanges := Some entries; changes := None |} in
  applyWorkspaceEdit urlToFilePath relativeToCwd both dryRun w
  = applyDocumentChanges urlToFilePath relativeToCwd entries dryRun [] w
  /\ applyWorkspaceEdit urlToFilePath relativeToCwd both dryRun w
     = applyWorkspaceEdit urlToFilePath relativeToCwd only dryRun w
  /\ formatWorkspaceEdit urlToFilePath both
     = Js.join (concat (map (formatChange urlToFilePath) entries))
  /\ formatWorkspaceEdit urlToFilePath both
     = formatWorkspaceEdit urlToFilePath only
  /\ planBatches both = omap batchOf entries.
Proof. repeat split. Qed.

(** What any run returns, when it returns: one entry per batch of the plan,
    in order, each with the number of edits of its batch. *)
Lemma applyWorkspaceEdit_results {FS} `{FileSystem FS}
    (urlToFilePath relativeToCwd : string -> string)
    (edit : WorkspaceEdit) (dryRun : bool) (w w' : World FS) results :
  applyWorkspaceEdit urlToFilePath relativeToCwd edit dryRun w
  = (Ok results, w') ->
  results = map (entryOf urlToFilePath relativeToCwd) (planBatches edit).
Proof.
  unfold applyWorkspaceEdit, planBatches.
  destruct (documentChanges edit) as [entries|].
  - apply applyDocumentChanges_results.
  - destruct (changes edit) as [entries|]; simpl.
    + apply applyLegacyChanges_results.
    + by intros [= <- _].
Qed.

(** A preview whose operations all have their locations returns. *)
Lemma applyWorkspaceEdit_preview {FS} `{FileSystem FS}
    (urlToFilePath relativeToCwd : string -> string)
    (edit : WorkspaceEdit) (w : World FS) :
  Forall (fun operation => lacksLocation operation = false)
    (planOperations edit) ->
  fst (applyWorkspaceEdit urlToFilePath relativeToCwd edit true w)
  = Ok (map (entryOf urlToFilePath relativeToCwd) (planBatches edit)).
Proof.
  unfold applyWorkspaceEdit, planBatches, planOperations.
  destruct (documentChanges edit) as [entries|].
  - intros Hops.
    by destruct (applyDocumentChanges_preview urlToFilePath relativeToCwd
                   entries [] w Hops) as [ls ->].
  - intros _. destruct (changes edit) as [entries|]; simpl; [|done].
    by destruct (applyLegacyChanges_preview urlToFilePath relativeToCwd
                   entries [] w) as [ls ->].
Qed.

(** C5: a preview of any WorkspaceEdit leaves the filesystem as it was and
    makes no call to it, no read, write, delete or rename, whether it returns
    or throws; what it returns is one entry per text-edit batch whose count
    is the number of edits of the batch; and it does return when no file
    operation lacks a location. *)
Theorem C5_preview_touches_no_file {FS} `{FileSystem FS}
    (urlToFilePath relativeToCwd : string -> string)
    (edit : WorkspaceEdit) (w : World FS) :
  let run := applyWorkspaceEdit urlToFilePath relativeToCwd edit true w in
  files (snd run) = files w
  /\ calls (snd run) = calls w
  /\ (forall results,
        fst run = Ok results ->
        results = map (fun batch =>
                         {| ApplyResult.file :=
                              relativeToCwd (urlToFilePath (fst batch));
                            ApplyResult.changes := length (snd batch) |})
                    (planBatches edit))
  /\ (Forall (fun operation => lacksLocation operation = false)
        (planOperations edit) ->
      isOk (fst run) = true).
Proof.
  intros run. unfold run.
  assert (files (snd (applyWorkspaceEdit urlToFilePath relativeToCwd edit true w))
          = files w
          /\ calls (snd (applyWorkspaceEdit urlToFilePath relativeToCwd edit true w))
             = calls w) as [Hf Hc].
  { unfold applyWorkspaceEdit.
    destruct (documentChanges edit) as [entries|].
    - apply applyDocumentChanges_preview_frame.
    - destruct (changes edit) as [entries|]; simpl; [|done].
      by destruct (applyLegacyChanges_preview urlToFilePath relativeToCwd
                     entries [] w) as [ls ->]. }
  split; [done|]. split; [done|]. split.
  - intros results Hres.
    destruct (applyWorkspaceEdit urlToFilePath relativeToCwd edit true w)
      as [r w'] eqn:E.
    simpl in Hres. subst r.
    by apply applyWorkspaceEdit_results in E.
  - intros Hops. by rewrite applyWorkspaceEdit_preview.
Qed.

(** ** Failures of file operations *)



(** C7, as the claim states it, fails: a real run of a plan that creates
    one file acts on that file and returns no entry. *)
Lemma C7_counterexample :
  let create :=
    {| kind := "create"; uri := Some "file:///new.txt";
       oldUri := None; newUri := None |} in
  let edit := {| documentChanges := Some [FileOp create]; changes := None |} in
  operationTargets stripScheme create = ["/new.txt"]
  /\ fst (applyWorkspaceEdit stripScheme id edit false (MemFs.world ∅)) = Ok []
  /\ calls (snd (applyWorkspaceEdit stripScheme id edit false (MemFs.world ∅)))
     = [CallWrite "/new.txt" ""]
  /\ files (snd (applyWorkspaceEdit stripScheme id edit false (MemFs.world ∅)))
       !! "/new.txt" = Some "".
Proof. repeat split. Qed.

(** C7, amended: what applyWorkspaceEdit returns is one entry for every
    text-edit batch of the plan, in the order of the plan, with the relative
    path of the file and the number of edits; a file that is only the target
    of a create, rename or delete gets no entry.  A preview whose operations
    all have their locations returns, and so does the real run of the mixed
    plan below on the file held in memory. *)
Theorem C7_one_entry_per_batch {FS} `{FileSystem FS}
    (urlToFilePath relativeToCwd : string -> string)
    (edit : WorkspaceEdit) (dryRun : bool) (w : World FS) :
  (forall results w',
     applyWorkspaceEdit urlToFilePath relativeToCwd edit dryRun w
     = (Ok results, w') ->
     results = map (entryOf urlToFilePath relativeToCwd) (planBatches edit))
  /\ (Forall (fun operation => lacksLocation operation = false)
        (planOperations edit) ->
      fst (applyWorkspaceEdit urlToFilePath relativeToCwd edit true w)
      = Ok (map (entryOf urlToFilePath relativeToCwd) (planBatches edit)))
  /\ (let create :=
        {| kind := "create"; uri := Some "file:///b";
           oldUri := None; newUri := None |} in
      let mixed :=
        {| documentChanges :=
             Some [FileOp create;
                   TextDocumentEdit "file:///a" [mkEdit 0 1 0 2 "X"];
                   TextDocumentEdit "file:///b" []];
           changes := None |} in
      fst (applyWorkspaceEdit stripScheme id mixed false
             (MemFs.world {[ "/a" := "abc" ]}))
      = Ok [{| ApplyResult.file := "/a"; ApplyResult.changes := 1 |};
            {| ApplyResult.file := "/b"; ApplyResult.changes := 0 |}]).
Proof.
  split; [|split].
  - intros results w'. apply applyWorkspaceEdit_results.
  - apply applyWorkspaceEdit_preview.
  - reflexivity.
Qed.

(** C10: an entry of documentChanges whose kind is not create, rename or
    delete is passed over: applyFileOperation returns at once, with the
    files, the calls and the log as they were, and applying the whole edit
    gives what applying it without that entry gives, results included. *)
Theorem C10_unknown_kind_is_skipped {FS} `{FileSystem FS}
    (urlToFilePath relativeToCwd : string -> string)
    (operation : Operation) (dryRun : bool) (w : World FS)
    (before after : list DocumentChange)
    (legacy : option (list (string * list TextEdit))) :
  kind operation <> "create" ->
  kind operation <> "rename" ->
  kind operation <> "delete" ->
  applyFileOperation urlToFilePath operation dryRun w = (Ok tt, w)
  /\ applyWorkspaceEdit urlToFilePath relativeToCwd
       {| documentChanges := Some (before ++ FileOp operation :: after);
          changes := legacy |} dryRun w
     = applyWorkspaceEdit urlToFilePath relativeToCwd
         {| documentChanges := Some (before ++ after);
            changes := legacy |} dryRun w
  /\ planBatches {| documentChanges := Some (before ++ FileOp operation :: after);
                    changes := legacy |}
     = planBatches {| documentChanges := Some (before ++ after);
                      changes := legacy |}.
Proof.
  intros Hc Hr Hd.
  assert (forall w1 : World FS,
            applyFileOperation urlToFilePath operation dryRun w1 = (Ok tt, w1))
    as Hskip.
  { intros w1. apply applyFileOperation_unknown.
    unfold knownKind. tauto. }
  split; [apply Hskip|]. split.
  - unfold applyWorkspaceEdit. simpl.
    rewrite !applyDocumentChanges_app.
    destruct (applyDocumentChanges urlToFilePath relativeToCwd before dryRun [] w)
      as [[rs|e] w1]; [|done].
    simpl. unfold bind. by rewrite Hskip.
  - unfold planBatches. simpl. by rewrite !omap_app.
Qed.

(** C10 on an entry of kind move between a create and an edit of a file
    held in memory. *)
Lemma C10_unknown_kind_is_skipped_witness :
  let move :=
    {| kind := "move"; uri := Some "file:///a";
       oldUri := None; newUri := None |} in
  let w := MemFs.world {[ "/a" := "abc" ]} in
  applyFileOperation stripScheme move false w = (Ok tt, w)
  /\ fst (applyWorkspaceEdit stripScheme id
            {| documentChanges :=
                 Some ([] ++ FileOp move
                       :: [TextDocumentEdit "file:///a" [mkEdit 0 1 0 2 "X"]]);
               changes := None |} false w)
     = Ok [{| ApplyResult.file := "/a"; ApplyResult.changes := 1 |}].
Proof.
  destruct (C10_unknown_kind_is_skipped stripScheme id
    {| kind := "move"; uri := Some "file:///a";
       oldUri := None; newUri := None |} false
    (MemFs.world {[ "/a" := "abc" ]}) []
    [TextDocumentEdit "file:///a" [mkEdit 0 1 0 2 "X"]] None
    ltac:(discriminate) ltac:(discriminate) ltac:(discriminate))
    as (Hskip & Hsame & _).
  split; [exact Hskip|].
  rewrite Hsame. reflexivity.
Defined.

(** ** Round trip *)

(** Sorted, pairwise apart and in bounds, the edits of a batch all apply:
    when a multi-line edit has shortened the array, the edits still to come
    end at or before its start line, which is still there. *)
Lemma applyEdits_inBounds edits_ lines :
  StronglySorted startsAtOrAfter edits_ ->
  ForallOrdPairs nonOverlapping edits_ ->
  Forall (inBounds lines) edits_ ->
  exists lines', applyEdits lines edits_ = Ok lines'.
Proof.
  revert lines. induction edits_ as [|e rest IH]; intros lines Hs Hp Hb.
  - by exists lines.
  - inversion Hs as [|? ? Hsrest Hse]; subst.
    inversion Hp as [|? ? Hpe Hprest]; subst.
    inversion Hb as [|? ? Hbe Hbrest]; subst.
    destruct (applyEdit_inBounds lines e Hbe)
      as (lines1 & Happly & Hlen & Hsame & _).
    simpl. rewrite Happly. apply IH; [done..|].
    rewrite Forall_forall in *. intros e' He'.
    specialize (Hse e' He'). specialize (Hpe e' He').
    specialize (Hbrest e' He').
    unfold inBounds, startsAtOrAfter, nonOverlapping, posLe in *.
    split; [tauto|].
    destruct (decide (line (start (range e)) = line (end_ (range e))))
      as [Heq|Hne].
    + rewrite (Hsame Heq). tauto.
    + lia.
Qed.

(** A real run on a file held in memory, when the patch succeeds: the
    file then holds the patched content. *)
Lemma applyTextEdits_memfs (w : World MemFs.t) filePath before after batch :
  files w !! filePath = Some before ->
  patchContent before batch = Ok after ->
  exists w',
    applyTextEdits filePath batch false w = (Ok (length batch), w')
    /\ files w' = <[filePath := after]> (files w).
Proof.
  intros Hfile Hpatch. destruct batch as [|e es].
  - exists w. split; [reflexivity|].
    unfold patchContent in Hpatch. simpl in Hpatch.
    rewrite join_split in Hpatch. injection Hpatch as <-.
    symmetry. by apply insert_id.
  - rewrite (applyTextEdits_run filePath (e :: es) w before)
      by (done || (change (MemFs.text (files w) filePath = Fulfilled before);
                   unfold MemFs.text; by rewrite Hfile)).
    cbv zeta. rewrite Hpatch. simpl. eauto.
Qed.

(** Sorted, pairwise apart and in bounds, a batch is applied to the end:
    no edit of it throws. *)
Lemma patchContent_inBounds content edits :
  Forall (inBounds (Js.split content)) edits ->
  ForallOrdPairs nonOverlapping edits ->
  exists post, patchContent content edits = Ok post.
Proof.
  intros Hb Hp.
  destruct (applyEdits_inBounds (sortedEdits edits) (Js.split content))
    as [lines' Hlines].
  - apply sortedEdits_sorted.
  - eapply ForallOrdPairs_perm; [|symmetry; apply sortedEdits_perm|done].
    unfold nonOverlapping. tauto.
  - eapply Permutation_Forall; [symmetry; apply sortedEdits_perm|done].
  - exists (Js.join lines'). unfold patchContent. by rewrite Hlines.
Qed.

(** Splits a statement about all the elements, or all the pairs, of an
    explicit list into one goal per element or pair. *)
Ltac each_of_list :=
  repeat first [ apply FOP_nil | apply FOP_cons
               | apply List.Forall_nil | apply List.Forall_cons ].



(** X21: a batch of exact edits, pairwise apart and no two of which start
    at the same position, is undone by its logical inverses.  The batch
    writes the content in which every edit has replaced the text between
    the offsets of its range in the original; each inverse spans, in that
    content, the new text of its edit and puts back the text that the edit
    replaced; and applying the inverses to the file written brings the file
    back to the original content. *)
Theorem X21_logical_inverses_undo_the_batch (content : string)
    (edits : list TextEdit) (fs : MemFs.t) (filePath : string) :
  Forall (placed (Js.split content)) edits ->
  ForallOrdPairs nonOverlapping edits ->
  ForallOrdPairs distinctStarts edits ->
  fs !! filePath = Some content ->
  let post :=
    applyCuts content (map (cutOf (Js.split content)) (sortedEdits edits)) in
  let inverse := logicalInverse content edits in
  patchContent content edits = Ok post
  /\ patchContent post inverse = Ok content
  /\ Forall2 (fun edit undo =>
                newText undo
                = textBetween (Js.split content)
                    (start (range edit)) (end_ (range edit))
                /\ textBetween (Js.split post)
                     (start (range undo)) (end_ (range undo))
                   = newText edit)
       (sortedEdits edits) inverse
  /\ exists w1 w2,
       applyTextEdits filePath edits false (MemFs.world fs)
       = (Ok (length edits), w1)
       /\ files w1 = <[filePath := post]> fs
       /\ applyTextEdits filePath inverse false w1
          = (Ok (length inverse), w2)
       /\ files w2 = fs.
Proof.
  intros Hplaced Hp Hdistinct Hfile post inverse.
  assert (StronglySorted endsBefore (sortedEdits edits)) as Hchain
    by (by eapply sortedEdits_endsBefore).
  pose proof (patchContent_cuts content edits Hplaced Hchain) as Hpatch.
  destruct (logicalInverse_round_trip content edits Hplaced Hp Hdistinct)
    as (post' & Hpatch' & Hback).
  assert (post' = post) as -> by (unfold post; congruence).
  split; [done|]. split; [done|].
  split; [apply (logicalInverse_spans content edits Hplaced Hchain)|].
  destruct (applyTextEdits_memfs (MemFs.world fs) filePath content post edits
              Hfile Hpatch) as (w1 & Hrun1 & Hfiles1).
  simpl in Hfiles1.
  destruct (applyTextEdits_memfs w1 filePath post content inverse)
    as (w2 & Hrun2 & Hfiles2); [by rewrite Hfiles1, lookup_insert_eq|done|].
  exists w1, w2. split; [done|]. split; [done|]. split; [done|].
  rewrite Hfiles2, Hfiles1, insert_insert_eq. by apply insert_id.
Qed.

(** X21 on a three-line file with two edits, one of them multi-line. *)
Lemma X21_logical_inverses_undo_the_batch_witness :
  let content := Js.join ["abc"; "def"; "ghi"] in
  let edits := [mkEdit 0 1 0 2 "X"; mkEdit 1 1 2 1 (Js.join ["p"; "q"; "r"])] in
  patchContent content edits = Ok (Js.join ["aXc"; "dp"; "q"; "rhi"])
  /\ patchContent (Js.join ["aXc"; "dp"; "q"; "rhi"])
       (logicalInverse content edits)
     = Ok content.
Proof.
  destruct (X21_logical_inverses_undo_the_batch (Js.join ["abc"; "def"; "ghi"])
    [mkEdit 0 1 0 2 "X"; mkEdit 1 1 2 1 (Js.join ["p"; "q"; "r"])]
    {[ "/f" := Js.join ["abc"; "def"; "ghi"] ]} "/f"
    ltac:(each_of_list; unfold placed, within, posLe; simpl; lia)
    ltac:(each_of_list; unfold nonOverlapping, posLe; simpl; lia)
    ltac:(each_of_list; discriminate)
    ltac:(reflexivity))
    as (Hpatch & Hback & _).
  split; [exact Hpatch|exact Hback].
Defined.

(** X27: a batch of edits in bounds that are pairwise apart is applied to
    the end: no edit of it throws, also when a multi-line edit applied
    before has made the array of lines shorter. *)
Theorem X27_batches_in_bounds_are_applied {FS} `{FileSystem FS}
    (filePath : string) (edits : list TextEdit) (w : World FS)
    (content : string) :
  Forall (inBounds (Js.split content)) edits ->
  ForallOrdPairs nonOverlapping edits ->
  fs_text (files w) filePath = Fulfilled content ->
  edits <> [] ->
  exists post,
    patchContent content edits = Ok post
    /\ calls (snd (applyTextEdits filePath edits false w))
       = calls w ++ [CallText filePath; CallWrite filePath post].
Proof.
  intros Hb Hp Htext Hne.
  destruct (patchContent_inBounds content edits Hb Hp) as [post Hpatch].
  exists post. split; [done|]. by eapply applyTextEdits_calls.
Qed.

(** X27 on four lines: the edit applied first joins the last three lines
    into one, and the edit on the first line is still applied. *)
Lemma X27_batches_in_bounds_are_applied_witness :
  exists post,
    patchContent (Js.join ["ab"; "cd"; "ef"; "gh"])
      [mkEdit 0 0 0 1 "X"; mkEdit 1 1 3 1 "Y"] = Ok post
    /\ calls (snd (applyTextEdits "/f"
                     [mkEdit 0 0 0 1 "X"; mkEdit 1 1 3 1 "Y"] false
                     (MemFs.world
                        {[ "/f" := Js.join ["ab"; "cd"; "ef"; "gh"] ]})))
       = [] ++ [CallText "/f"; CallWrite "/f" post].
Proof.
  exact (X27_batches_in_bounds_are_applied "/f"
    [mkEdit 0 0 0 1 "X"; mkEdit 1 1 3 1 "Y"]
    (MemFs.world {[ "/f" := Js.join ["ab"; "cd"; "ef"; "gh"] ]})
    (Js.join ["ab"; "cd"; "ef"; "gh"])
    ltac:(each_of_list; unfold inBounds, posLe; simpl; lia)
    ltac:(each_of_list; unfold nonOverlapping, posLe; simpl; lia)
    eq_refl ltac:(discriminate)).
Defined.

(** ** Further properties of the engine *)

(** The loop over documentChanges does to batches what the loop over the
    legacy mapping does. *)
Lemma applyDocumentChanges_legacy {FS} `{FileSystem FS}
    (urlToFilePath relativeToCwd : string -> string)
    entries dryRun results (w : World FS) :
  applyDocumentChanges urlToFilePath relativeToCwd
    (asDocumentChanges entries) dryRun results w
  = applyLegacyChanges urlToFilePath relativeToCwd entries dryRun results w.
Proof.
  revert results w.
  induction entries as [|[u es] rest IH]; intros results w; [done|].
  simpl. unfold bind.
  destruct (applyTextEdits (urlToFilePath u) es dryRun w) as [[n|e] w1];
    [apply IH|done].
Qed.

(** X1: a WorkspaceEdit whose batches are all empty does nothing, in
    either mode and in either form: nothing is logged, nothing is read or
    written, and the result has one entry with 0 changes for each batch. *)
Theorem X1_empty_batches_do_nothing {FS} `{FileSystem FS}
    (urlToFilePath relativeToCwd : string -> string)
    (entries : list (string * list TextEdit)) (dryRun : bool)
    (w : World FS) :
  Forall (fun batch => snd batch = []) entries ->
  let results :=
    map (fun batch =>
           {| ApplyResult.file := relativeToCwd (urlToFilePath (fst batch));
              ApplyResult.changes := 0 |}) entries in
  applyWorkspaceEdit urlToFilePath relativeToCwd
    {| documentChanges := None; changes := Some entries |} dryRun w
  = (Ok results, w)
  /\ applyWorkspaceEdit urlToFilePath relativeToCwd
       {| documentChanges := Some (asDocumentChanges entries);
          changes := None |} dryRun w
     = (Ok results, w).
Proof.
  intros Hempty results.
  assert (forall acc,
    applyLegacyChanges urlToFilePath relativeToCwd entries dryRun acc w
    = (Ok (acc ++ results), w)) as Hloop.
  { unfold results. clear results.
    induction Hempty as [|[u es] rest Hes Hrest IH]; intros acc; simpl.
    - unfold ret. by rewrite app_nil_r.
    - simpl in Hes. subst es. unfold bind. simpl.
      rewrite IH. by rewrite <- app_assoc. }
  split.
  - apply (Hloop []).
  - change (applyDocumentChanges urlToFilePath relativeToCwd
              (asDocumentChanges entries) dryRun [] w = (Ok results, w)).
    rewrite applyDocumentChanges_legacy. apply (Hloop []).
Qed.

(** X1 on a mapping with two files and no edit for either. *)
Lemma X1_empty_batches_do_nothing_witness :
  let w := MemFs.world {[ "/a" := "abc" ]} in
  applyWorkspaceEdit stripScheme id
    {| documentChanges := None;
       changes := Some [("file:///a", []); ("file:///b", [])] |} false w
  = (Ok [{| ApplyResult.file := "/a"; ApplyResult.changes := 0 |};
         {| ApplyResult.file := "/b"; ApplyResult.changes := 0 |}], w).
Proof.
  exact (proj1 (X1_empty_batches_do_nothing stripScheme id
    [("file:///a", []); ("file:///b", [])] false
    (MemFs.world {[ "/a" := "abc" ]})
    ltac:(repeat constructor))).
Defined.

(** X3: a previewed create, delete or rename that has its locations logs
    the action it would take, marked as a dry run, calls nothing of the
    filesystem and returns. *)
Theorem X3_file_operation_preview_logs {FS} `{FileSystem FS}
    (urlToFilePath : string -> string) (w : World FS)
    (target source : string) :
  target <> "" ->
  source <> "" ->
  applyFileOperation urlToFilePath
    {| kind := "create"; uri := Some target; oldUri := None; newUri := None |}
    true w
  = (Ok tt,
     mkWorld (files w) (calls w)
       (logs w ++ ["[DRY RUN] Create file: " +:+ urlToFilePath target]))
  /\ applyFileOperation urlToFilePath
       {| kind := "delete"; uri := Some target; oldUri := None; newUri := None |}
       true w
     = (Ok tt,
        mkWorld (files w) (calls w)
          (logs w ++ ["[DRY RUN] Delete file: " +:+ urlToFilePath target]))
  /\ applyFileOperation urlToFilePath
       {| kind := "rename"; uri := None;
          oldUri := Some source; newUri := Some target |}
       true w
     = (Ok tt,
        mkWorld (files w) (calls w)
          (logs w ++ ["[DRY RUN] Rename file: " +:+ urlToFilePath source
                      +:+ " -> " +:+ urlToFilePath target])).
Proof.
  intros Ht Hs. unfold applyFileOperation, truthy. simpl.
  destruct (decide (target = "")) as [|_]; [done|].
  destruct (decide (source = "")) as [|_]; [done|].
  repeat split.
Qed.

(** X3 on a create, a delete and a rename of files held in memory. *)
Lemma X3_file_operation_preview_logs_witness :
  applyFileOperation stripScheme
    {| kind := "rename"; uri := None;
       oldUri := Some "file:///a"; newUri := Some "file:///b" |}
    true (MemFs.world {[ "/a" := "abc" ]})
  = (Ok tt,
     mkWorld {[ "/a" := "abc" ]} [] ["[DRY RUN] Rename file: /a -> /b"]).
Proof.
  exact (proj2 (proj2 (X3_file_operation_preview_logs stripScheme
    (MemFs.world {[ "/a" := "abc" ]}) "file:///b" "file:///a"
    ltac:(discriminate) ltac:(discriminate)))).
Defined.

(** X4: entries are processed one after the other and the first failure
    ends the call: the entries after it are not run, and what the entries
    before it did is not undone. *)
Theorem X4_failure_stops_the_run {FS} `{FileSystem FS}
    (urlToFilePath relativeToCwd : string -> string)
    (before after : list DocumentChange) (failing : DocumentChange)
    (dryRun : bool) (w w1 w2 : World FS) results results' e :
  applyDocumentChanges urlToFilePath relativeToCwd before dryRun results w
  = (Ok results', w1) ->
  applyDocumentChanges urlToFilePath relativeToCwd [failing] dryRun results' w1
  = (Throw e, w2) ->
  applyDocumentChanges urlToFilePath relativeToCwd
    (before ++ failing :: after) dryRun results w
  = (Throw e, w2).
Proof.
  intros Hbefore Hfail.
  rewrite applyDocumentChanges_app, Hbefore.
  change (failing :: after) with ([failing] ++ after).
  by rewrite applyDocumentChanges_app, Hfail.
Qed.

(** X4 on a plan that creates a file, then edits a file that does not
    exist, then would delete the first: the created file stays, the delete
    is never reached. *)
Lemma X4_failure_stops_the_run_witness :
  let create := {| kind := "create"; uri := Some "file:///new";
                   oldUri := None; newUri := None |} in
  let delete := {| kind := "delete"; uri := Some "file:///new";
                   oldUri := None; newUri := None |} in
  applyDocumentChanges stripScheme id
    ([FileOp create]
     ++ TextDocumentEdit "file:///missing" [mkEdit 0 0 0 0 "x"]
     :: [FileOp delete]) false [] (MemFs.world ∅)
  = (Throw (FsFailure "ENOENT"),
     mkWorld {[ "/new" := "" ]}
       [CallWrite "/new" ""; CallText "/missing"]
       ["Create file: /new"; "Applying 1 edits to /missing"]).
Proof.
  exact (X4_failure_stops_the_run stripScheme id
    [FileOp {| kind := "create"; uri := Some "file:///new";
               oldUri := None; newUri := None |}]
    [FileOp {| kind := "delete"; uri := Some "file:///new";
               oldUri := None; newUri := None |}]
    (TextDocumentEdit "file:///missing" [mkEdit 0 0 0 0 "x"])
    false (MemFs.world ∅) _ _ [] _ _ eq_refl eq_refl).
Defined.

(** X5: the sort keeps the edits that start at the same position in the
    order they have in the batch; with the order by start position this
    fixes the order of application. *)
Theorem X5_equal_starts_keep_input_order (p : Position)
    (edits : list TextEdit) :
  filter (fun e => start (range e) = p) (sortedEdits edits)
  = filter (fun e => start (range e) = p) edits.
Proof.
  induction edits as [|x l IH]; [done|].
  unfold sortedEdits in *. simpl.
  by rewrite insertSorted_stable, !filter_cons, IH.
Qed.

(** ** Lines that are missing *)

Lemma applyEdit_outcome lines edit :
  (line (start (range edit)) < length lines
   /\ line (end_ (range edit)) < length lines
   /\ exists lines', applyEdit lines edit = Ok lines')
  \/ ((length lines <= line (start (range edit))
       \/ length lines <= line (end_ (range edit)))
      /\ applyEdit lines edit = Throw TypeError).
Proof.
  unfold applyEdit.
  destruct (Nat.eqb_spec (line (start (range edit))) (line (end_ (range edit))))
    as [Heq|Hne].
  - destruct (lines !! line (start (range edit))) as [l|] eqn:Hs.
    + left. apply lookup_lt_Some in Hs. rewrite <- Heq. eauto.
    + right. apply lookup_ge_None in Hs. split; [by left|done].
  - destruct (lines !! line (start (range edit))) as [l|] eqn:Hs;
      [destruct (lines !! line (end_ (range edit))) as [l'|] eqn:He|].
    + left. apply lookup_lt_Some in Hs, He. eauto.
    + right. apply lookup_ge_None in He. split; [by right|done].
    + right. apply lookup_ge_None in Hs. split; [by left|done].
Qed.

(** X6: one edit throws exactly when its start line or its end line is not
    a line of the array, and what it throws then is the TypeError of a
    method call on undefined; character offsets never make it throw. *)
Theorem X6_edit_throws_iff_line_missing (lines : list string)
    (edit : TextEdit) :
  (applyEdit lines edit = Throw TypeError
   <-> length lines <= line (start (range edit))
       \/ length lines <= line (end_ (range edit)))
  /\ (isOk (applyEdit lines edit) = true
      <-> line (start (range edit)) < length lines
          /\ line (end_ (range edit)) < length lines).
Proof.
  destruct (applyEdit_outcome lines edit)
    as [(Hs & He & lines' & ->)|[Hout ->]]; simpl.
  - split; split; try done; try lia.
  - split; split; try done; try lia.
Qed.

(** The edit applied first is one that starts on the last start line. *)
Lemma sortedEdits_head edits h rest :
  sortedEdits edits = h :: rest ->
  Forall (fun e => line (start (range e)) <= line (start (range h))) edits.
Proof.
  intros Hsort. pose proof (sortedEdits_sorted edits) as Hs.
  eapply Permutation_Forall; [apply sortedEdits_perm|].
  rewrite Hsort in *. inversion Hs as [|? ? _ Hall]; subst.
  constructor; [done|].
  eapply Forall_impl; [exact Hall|].
  intros e. unfold startsAtOrAfter, posLe. lia.
Qed.

Lemma patchContent_past_last_line content edits :
  Exists (fun e => length (Js.split content) <= line (start (range e))) edits ->
  patchContent content edits = Throw TypeError.
Proof.
  intros Hex. unfold patchContent.
  destruct (sortedEdits edits) as [|h rest] eqn:Hsort.
  - apply (f_equal length) in Hsort. rewrite sortedEdits_length in Hsort.
    destruct edits; [by inversion Hex|done].
  - apply sortedEdits_head in Hsort.
    apply List.Exists_exists in Hex as (e & He & Hout).
    rewrite List.Forall_forall in Hsort. specialize (Hsort e He).
    simpl.
    destruct (applyEdit_outcome (Js.split content) h)
      as [(Hs & _)|[_ ->]]; [lia|done].
Qed.

(** X7: a batch with an edit that starts past the last line of the file is
    refused as a whole: the run throws a TypeError after the read, and the
    file is not written, whatever the other edits of the batch are. *)
Theorem X7_edit_past_last_line_rejects_batch {FS} `{FileSystem FS}
    (filePath : string) (edits : list TextEdit) (w : World FS)
    (content : string) :
  fs_text (files w) filePath = Fulfilled content ->
  Exists (fun e => length (Js.split content) <= line (start (range e))) edits ->
  applyTextEdits filePath edits false w
  = (Throw TypeError,
     mkWorld (files w) (calls w ++ [CallText filePath])
       (logs w ++ [batchHeader false filePath edits])).
Proof.
  intros Htext Hex.
  rewrite (applyTextEdits_run filePath edits w content); [|by destruct Hex|done].
  cbv zeta. by rewrite patchContent_past_last_line.
Qed.

(** X7 on a file of two lines held in memory: the edit on line 5 makes the
    batch fail, and the edit on line 0 is not applied either. *)
Lemma X7_edit_past_last_line_rejects_batch_witness :
  let fs : MemFs.t := {[ "/f" := "ab" +:+ Js.LFs +:+ "cd" ]} in
  applyTextEdits "/f" [mkEdit 0 0 0 1 "X"; mkEdit 5 0 5 0 "Y"] false
    (MemFs.world fs)
  = (Throw TypeError,
     mkWorld fs [CallText "/f"] ["Applying 2 edits to /f"]).
Proof.
  exact (X7_edit_past_last_line_rejects_batch "/f"
           [mkEdit 0 0 0 1 "X"; mkEdit 5 0 5 0 "Y"]
           (MemFs.world {[ "/f" := "ab" +:+ Js.LFs +:+ "cd" ]})
           ("ab" +:+ Js.LFs +:+ "cd") eq_refl
           ltac:(apply Exists_cons_tl, Exists_cons_hd; simpl; lia)).
Defined.

(** X8: a real run of a batch writes at most once, and only the content
    with the whole batch applied: either the batch is empty and nothing is
    asked of the filesystem, or the run throws after the read and the
    filesystem is as it was, or the one write that follows the read holds the
    patched content. *)
Theorem X8_one_write_of_the_patched_content {FS} `{FileSystem FS}
    (filePath : string) (edits : list TextEdit) (w : World FS) :
  let run := applyTextEdits filePath edits false w in
  (edits = [] /\ run = (Ok 0, w))
  \/ (calls (snd run) = calls w ++ [CallText filePath]
      /\ files (snd run) = files w
      /\ isOk (fst run) = false)
  \/ (exists content post,
        fs_text (files w) filePath = Fulfilled content
        /\ patchContent content edits = Ok post
        /\ calls (snd run)
           = calls w ++ [CallText filePath; CallWrite filePath post]).
Proof.
  intros run. unfold run.
  destruct edits as [|e es]; [by left|]. right.
  destruct (fs_text (files w) filePath) as [content|reason] eqn:Htext.
  - rewrite (applyTextEdits_run filePath (e :: es) w content) by done.
    cbv zeta.
    destruct (patchContent content (e :: es)) as [post|x] eqn:Hpatch.
    + right. exists content, post. split; [done|]. split; [done|].
      destruct (fs_write (files w) filePath post); simpl;
        by rewrite <- app_assoc.
    + left. done.
  - left. unfold applyTextEdits.
    change (Nat.eqb (length (e :: es)) 0) with false. cbv iota.
    unfold bind, log, readText. simpl files. rewrite Htext. done.
Qed.

(** ** The number of lines *)

Lemma split_length s : length (Js.split s) = S (lineFeeds s).
Proof.
  induction s as [|c s IH]; [reflexivity|]. simpl.
  destruct (Ascii.eqb c Js.LF); simpl; [by rewrite IH|].
  pose proof (split_nonempty s).
  destruct (Js.split s); [done|]. simpl in *. lia.
Qed.

Lemma lineFeeds_app (a b : string) :
  lineFeeds (a +:+ b) = lineFeeds a + lineFeeds b.
Proof.
  induction a as [|c a IH]; [reflexivity|].
  rewrite string_app_cons. simpl. rewrite IH. lia.
Qed.

Lemma lineFeeds_noLF s : noLF s -> lineFeeds s = 0.
Proof.
  induction s as [|c s IH]; [done|]. intros [Hc Hs]. simpl.
  apply Ascii.eqb_neq in Hc. rewrite Hc. by rewrite IH.
Qed.

Lemma noLF_substring_from n s : noLF s -> noLF (Js.substring_from n s).
Proof.
  revert s. induction n as [|n IH]; intros [|c s]; simpl; try done.
  intros [Hc Hs]. by apply IH.
Qed.

Lemma lineFeeds_spliced lines edit :
  Forall noLF lines -> lineFeeds (spliced lines edit) = lineFeeds (newText edit).
Proof.
  intros Hall. unfold spliced. rewrite !lineFeeds_app.
  rewrite (lineFeeds_noLF (Js.substring_to _ _))
    by apply noLF_substring_to, noLF_lookup, Hall.
  rewrite (lineFeeds_noLF (Js.substring_from _ _))
    by apply noLF_substring_from, noLF_lookup, Hall.
  lia.
Qed.

(** X9: after one edit in bounds the file has as many lines as before,
    less the line breaks that the range spanned, plus the line feeds of the
    new text; this also holds for a same-line edit whose new text holds
    line feeds, which the array of lines keeps as one element. *)
Theorem X9_line_count_after_edit (content : string) (edit : TextEdit) :
  inBounds (Js.split content) edit ->
  exists post,
    patchContent content [edit] = Ok post
    /\ length (Js.split post)
       + (line (end_ (range edit)) - line (start (range edit)))
       = length (Js.split content) + lineFeeds (newText edit).
Proof.
  intros Hb. unfold patchContent. rewrite sortedEdits_singleton. simpl.
  destruct (applyEdit_inBounds _ _ Hb) as (lines' & -> & _ & _ & Hsplit).
  eexists. split; [reflexivity|].
  apply inBounds_lines in Hb as [Hse He].
  pose proof (split_noLF content) as Hall.
  rewrite Hsplit.
  rewrite !concat_split_noLF
    by (apply Forall_take, Hall || apply Forall_drop, Hall).
  rewrite !length_app, length_take, length_drop, !split_length.
  rewrite lineFeeds_spliced by done. rewrite split_length in He. lia.
Qed.

(** X9 on three lines: replacing from the middle of the first line to the
    middle of the third by a text with one line feed leaves two lines. *)
Lemma X9_line_count_after_edit_witness :
  exists post,
    patchContent ("ab" +:+ Js.LFs +:+ "cd" +:+ Js.LFs +:+ "ef")
      [mkEdit 0 1 2 1 ("X" +:+ Js.LFs +:+ "Y")] = Ok post
    /\ length (Js.split post) + (2 - 0) = 3 + 1.
Proof.
  apply (X9_line_count_after_edit
           ("ab" +:+ Js.LFs +:+ "cd" +:+ Js.LFs +:+ "ef")
           (mkEdit 0 1 2 1 ("X" +:+ Js.LFs +:+ "Y"))).
  unfold inBounds, posLe. simpl. lia.
Defined.

(** ** Characters past the end of a line *)

Lemma substring_to_min n s :
  Js.substring_to (Nat.min n (String.length s)) s = Js.substring_to n s.
Proof.
  destruct (Nat.le_ge_cases n (String.length s)).
  - by rewrite Nat.min_l.
  - rewrite Nat.min_r by done. by rewrite !substring_to_all.
Qed.

Lemma substring_from_min n s :
  Js.substring_from (Nat.min n (String.length s)) s = Js.substring_from n s.
Proof.
  destruct (Nat.le_ge_cases n (String.length s)).
  - by rewrite Nat.min_l.
  - rewrite Nat.min_r by done. by rewrite !substring_from_all.
Qed.

(** X10: a character offset past the end of its line counts as the end of
    the line: an edit does what the edit with both its offsets brought back
    into their lines does, and never throws for an offset. *)
Theorem X10_characters_are_clamped (lines : list string) (edit : TextEdit) :
  applyEdit lines edit = applyEdit lines (clampEdit lines edit).
Proof.
  unfold applyEdit, clampEdit, clampPosition. simpl.
  destruct (Nat.eqb (line (start (range edit))) (line (end_ (range edit))))
    eqn:Heq.
  - apply Nat.eqb_eq in Heq. rewrite <- Heq.
    destruct (lines !! line (start (range edit))) as [l|]; [|done]. simpl.
    by rewrite substring_to_min, substring_from_min.
  - destruct (lines !! line (start (range edit))) as [l|]; [|done].
    destruct (lines !! line (end_ (range edit))) as [l'|]; [|done]. simpl.
    by rewrite substring_to_min, substring_from_min.
Qed.

(** ** Ranges that end before they start *)

(** X11: an edit whose end line is before its start line is not refused,
    and it removes nothing: the lines of the spliced text are put in before
    its start line, and every line of the array stays. *)
Theorem X11_inverted_range_only_inserts (lines : list string)
    (edit : TextEdit) (startLine endLine : string) :
  line (end_ (range edit)) < line (start (range edit)) ->
  lines !! line (start (range edit)) = Some startLine ->
  lines !! line (end_ (range edit)) = Some endLine ->
  applyEdit lines edit
  = Ok (take (line (start (range edit))) lines
        ++ Js.split (Js.substring_to (character (start (range edit))) startLine
                     +:+ newText edit
                     +:+ Js.substring_from (character (end_ (range edit))) endLine)
        ++ drop (line (start (range edit))) lines).
Proof.
  intros Hlt Hs He. unfold applyEdit.
  rewrite (proj2 (Nat.eqb_neq _ _)) by lia. rewrite Hs, He.
  apply lookup_lt_Some in Hs. unfold Js.splice.
  rewrite (Nat.min_l (line (start (range edit)))) by lia.
  replace (Z.to_nat (Z.max (Z.of_nat (line (end_ (range edit)))
                            - Z.of_nat (line (start (range edit))) + 1) 0))
    with 0 by lia.
  by rewrite Nat.min_0_l, Nat.add_0_r.
Qed.

(** X11 on three lines, with a range from line 2 back to line 0. *)
Lemma X11_inverted_range_only_inserts_witness :
  applyEdit ["ab"; "cd"; "ef"] (mkEdit 2 1 0 1 "X")
  = Ok ["ab"; "cd"; "eXb"; "ef"].
Proof.
  exact (X11_inverted_range_only_inserts ["ab"; "cd"; "ef"]
           (mkEdit 2 1 0 1 "X") "ef" "ab"
           ltac:(simpl; lia) eq_refl eq_refl).
Defined.

(** ** An edit that changes nothing *)

(** X12: replacing a range by the text it holds leaves the content as it
    is, to the code unit. *)
Theorem X12_replacing_by_the_same_text (content : string) (edit : TextEdit) :
  placed (Js.split content) edit ->
  newText edit
  = textBetween (Js.split content) (start (range edit)) (end_ (range edit)) ->
  patchContent content [edit] = Ok content.
Proof.
  intros Hplaced Htext.
  rewrite patchContent_cuts;
    [|by apply Forall_cons
     |rewrite sortedEdits_singleton; apply SSorted_cons; constructor].
  rewrite sortedEdits_singleton. f_equal.
  destruct Hplaced as (Hse & Hws & Hwe).
  unfold applyCuts, applyCut, cutOf. simpl. rewrite Htext. unfold textBetween.
  pose proof (offset_le (Js.split content) _ _ Hse (proj1 Hwe)) as Hle.
  pose proof (textBefore_prefix (Js.split content) (end_ (range edit))
                (proj1 Hwe)) as Hprefix.
  rewrite join_split in Hprefix.
  set (m := String.length (textBefore (Js.split content) (start (range edit))))
    in *.
  set (n := String.length (textBefore (Js.split content) (end_ (range edit))))
    in *.
  rewrite <- Hprefix. by apply substring_three.
Qed.

(** X12 on two lines: the range from the middle of the first line to the
    middle of the second holds b, a line feed and c. *)
Lemma X12_replacing_by_the_same_text_witness :
  patchContent ("ab" +:+ Js.LFs +:+ "cd")
    [mkEdit 0 1 1 1 ("b" +:+ Js.LFs +:+ "c")]
  = Ok ("ab" +:+ Js.LFs +:+ "cd").
Proof.
  apply (X12_replacing_by_the_same_text ("ab" +:+ Js.LFs +:+ "cd")
           (mkEdit 0 1 1 1 ("b" +:+ Js.LFs +:+ "c"))).
  - unfold placed, within, posLe. simpl. lia.
  - reflexivity.
Defined.

(** ** Insertions at one position *)

Lemma compareEdits_same_start a b :
  start (range a) = start (range b) -> compareEdits a b = 0%Z.
Proof.
  intros Heq. unfold compareEdits. rewrite Heq, !Z.sub_diag. reflexivity.
Qed.

(** X13: of two insertions at the same position, the one that comes later
    in the batch ends up first in the text: the first is applied first, and
    the second is then put in before it. *)
Theorem X13_insertions_at_one_position (content : string) (p : Position)
    (first second : string) :
  within (Js.split content) p ->
  patchContent content [insertAt p first; insertAt p second]
  = Ok (textBefore (Js.split content) p
        +:+ second +:+ first
        +:+ textAfter (Js.split content) p).
Proof.
  intros [Hline Hchar]. unfold patchContent, sortedEdits. simpl sort.
  rewrite compareEdits_same_start by reflexivity. simpl.
  destruct (lookup_lt_is_Some_2 _ _ Hline) as [l Hl].
  rewrite Hl in Hchar. simpl in Hchar.
  rewrite (applyEdit_single _ _ l) by done. simpl.
  rewrite (applyEdit_single _ _
             (Js.substring_to (character p) l +:+ first
              +:+ Js.substring_from (character p) l));
    [|done|by apply list_lookup_insert_eq]. simpl.
  rewrite list_insert_insert_eq.
  rewrite substring_to_app_exact
    by (rewrite substring_to_length; lia).
  replace (Js.substring_from (character p)
             (Js.substring_to (character p) l +:+ first
              +:+ Js.substring_from (character p) l))
    with (first +:+ Js.substring_from (character p) l).
  2:{ symmetry.
      rewrite <- (Nat.min_l (character p) (String.length l)) at 1 by done.
      rewrite <- substring_to_length. apply substring_from_app_length. }
  f_equal. rewrite insert_take_drop by done.
  unfold textBefore, textAfter. rewrite Hl. simpl default.
  rewrite <- (join_cons_app first), <- (join_cons_app second).
  by rewrite join_snoc_cons.
Qed.

(** X13 on the line ab with the insertions of X and then Y after a. *)
Lemma X13_insertions_at_one_position_witness :
  patchContent "ab" [insertAt (mkPos 0 1) "X"; insertAt (mkPos 0 1) "Y"]
  = Ok "aYXb".
Proof.
  apply (X13_insertions_at_one_position "ab" (mkPos 0 1) "X" "Y").
  unfold within. simpl. lia.
Defined.

(** ** The order of the input *)

Lemma distinctStarts_or_equal edits a b :
  ForallOrdPairs distinctStarts edits ->
  In a edits -> In b edits ->
  a = b \/ start (range a) <> start (range b).
Proof.
  induction 1 as [|x l Hx Hl IH]; [done|].
  rewrite List.Forall_forall in Hx. unfold distinctStarts in Hx.
  intros [Hax|Ha] [Hbx|Hb].
  - left. congruence.
  - subst. right. by apply Hx.
  - subst. right. intros Heq. by apply (Hx a Ha).
  - by apply IH.
Qed.

(** Two sorted arrays of the same edits, no two of which start at the same
    position, are the same array. *)
Lemma sorted_unique l l' :
  StronglySorted startsAtOrAfter l ->
  StronglySorted startsAtOrAfter l' ->
  Permutation l l' ->
  ForallOrdPairs distinctStarts l ->
  l = l'.
Proof.
  intros Hl. revert l'.
  induction Hl as [|a l Hl IH Ha]; intros l' Hl' Hperm Hdistinct.
  - apply Permutation_nil in Hperm. by subst.
  - destruct Hl' as [|b l' Hl' Hb].
    + symmetry in Hperm. by apply Permutation_nil in Hperm.
    + assert (a = b) as <-.
      { assert (In a (b :: l')) as Hin
          by (eapply Permutation_in; [exact Hperm|by left]).
        assert (In b (a :: l)) as Hin'
          by (eapply Permutation_in; [symmetry; exact Hperm|by left]).
        destruct Hin as [->|Hin]; [done|].
        destruct Hin' as [->|Hin']; [done|].
        rewrite List.Forall_forall in Ha, Hb.
        specialize (Ha b Hin'). specialize (Hb a Hin).
        destruct (distinctStarts_or_equal (a :: l) a b Hdistinct)
          as [|Hne]; [by left|by right|done|].
        exfalso. apply Hne.
        unfold startsAtOrAfter, posLe in *.
        destruct (start (range a)) as [la ca], (start (range b)) as [lb cb].
        simpl in *. f_equal; lia. }
      f_equal. apply IH; [done|by eapply Permutation_cons_inv|].
      by inversion Hdistinct.
Qed.

(** X14: when no two edits of a batch start at the same position, the
    order of the batch plays no part: a batch and any of its permutations
    are sorted to the same array, and applying them, in either mode, does
    the same to the same world. *)
Theorem X14_input_order_is_immaterial {FS} `{FileSystem FS}
    (filePath : string) (edits edits' : list TextEdit) (dryRun : bool)
    (w : World FS) :
  Permutation edits edits' ->
  ForallOrdPairs distinctStarts edits ->
  sortedEdits edits = sortedEdits edits'
  /\ applyTextEdits filePath edits dryRun w
     = applyTextEdits filePath edits' dryRun w.
Proof.
  intros Hperm Hdistinct.
  assert (sortedEdits edits = sortedEdits edits') as Hsame.
  { apply sorted_unique; [apply sortedEdits_sorted..| |].
    - by rewrite !sortedEdits_perm.
    - eapply ForallOrdPairs_perm; [|symmetry; apply sortedEdits_perm|done].
      unfold distinctStarts. congruence. }
  split; [done|].
  unfold applyTextEdits.
  by rewrite Hsame, (Permutation_length Hperm).
Qed.

(** X14 on a batch of two edits and the same two the other way round. *)
Lemma X14_input_order_is_immaterial_witness :
  let fs : MemFs.t := {[ "/f" := "abc" ]} in
  applyTextEdits "/f" [mkEdit 0 0 0 1 "X"; mkEdit 0 2 0 3 "Y"] false
    (MemFs.world fs)
  = applyTextEdits "/f" [mkEdit 0 2 0 3 "Y"; mkEdit 0 0 0 1 "X"] false
      (MemFs.world fs).
Proof.
  apply (X14_input_order_is_immaterial "/f"
           [mkEdit 0 0 0 1 "X"; mkEdit 0 2 0 3 "Y"]
           [mkEdit 0 2 0 3 "Y"; mkEdit 0 0 0 1 "X"] false
           (MemFs.world {[ "/f" := "abc" ]})).
  - apply perm_swap.
  - repeat constructor. unfold distinctStarts. simpl. discriminate.
Defined.

(** X15: the comparator of the sort is consistent: swapping its arguments
    changes the sign of its result, it gives 0 exactly for two edits that
    start at the same position, and the order it induces is transitive. *)
Theorem X15_comparator_is_consistent (a b c : TextEdit) :
  compareEdits a b = (- compareEdits b a)%Z
  /\ (compareEdits a b = 0%Z <-> start (range a) = start (range b))
  /\ ((compareEdits a b <= 0)%Z -> (compareEdits b c <= 0)%Z ->
      (compareEdits a c <= 0)%Z).
Proof.
  split; [|split].
  - unfold compareEdits.
    repeat match goal with
           | |- context [Z.eqb ?x 0] => destruct (Z.eqb_spec x 0)
           end; simpl; lia.
  - split.
    + unfold compareEdits.
      destruct (start (range a)) as [la ca], (start (range b)) as [lb cb].
      simpl. destruct (Z.eqb_spec (Z.of_nat lb - Z.of_nat la) 0); simpl;
        intros Hz; [f_equal; lia|lia].
    + apply compareEdits_same_start.
  - rewrite !compareEdits_le. unfold startsAtOrAfter, posLe. lia.
Qed.

(** A batch that comes in ascending order of distinct starts is previewed
    in the order it comes in. *)
Lemma sortedEdits_ascending edits :
  StronglySorted (fun a b => startsAtOrAfter b a) edits ->
  ForallOrdPairs distinctStarts edits ->
  rev (sortedEdits edits) = edits.
Proof.
  intros Hasc Hdistinct.
  rewrite (sorted_unique (sortedEdits edits) (rev edits)).
  - apply rev_involutive.
  - apply sortedEdits_sorted.
  - by apply (StronglySorted_rev (fun a b => startsAtOrAfter b a)).
  - rewrite sortedEdits_perm. apply Permutation_rev.
  - eapply ForallOrdPairs_perm; [|symmetry; apply sortedEdits_perm|done].
    unfold distinctStarts. congruence.
Qed.

(** X2: formatWorkspaceEdit renders every batch of the plan, where the plan
    has it, as the header line of its file and one line per edit in the
    order the edits come in, in both forms of the plan and whatever entries
    come before and after.  The preview of the batch logs the same
    descriptions by ascending start instead, so the two listings are in the
    same order exactly when the sort and the reverse give the batch back,
    as for a batch that comes in ascending order of distinct starts. *)
Theorem X2_format_keeps_input_order {FS} `{FileSystem FS}
    (urlToFilePath : string -> string)
    (before after : list DocumentChange)
    (entriesBefore entriesAfter : list (string * list TextEdit))
    (uri_ : string) (edits : list TextEdit)
    (legacy : option (list (string * list TextEdit))) (w : World FS) :
  let batchLines :=
    ("Edit " +:+ urlToFilePath uri_ +:+ ":")
    :: map (fun textEdit => "  " +:+ describeEdit textEdit) edits in
  let batches entries :=
    concat (map (fun batch : string * list TextEdit =>
                   formatBatch urlToFilePath (fst batch) (snd batch))
              entries) in
  formatWorkspaceEdit urlToFilePath
    {| documentChanges :=
         Some (before ++ TextDocumentEdit uri_ edits :: after);
       changes := legacy |}
  = Js.join (concat (map (formatChange urlToFilePath) before)
             ++ batchLines
             ++ concat (map (formatChange urlToFilePath) after))
  /\ formatWorkspaceEdit urlToFilePath
       {| documentChanges := None;
          changes := Some (entriesBefore ++ (uri_, edits) :: entriesAfter) |}
     = Js.join (batches entriesBefore ++ batchLines ++ batches entriesAfter)
  /\ (edits <> [] ->
      logs (snd (applyTextEdits (urlToFilePath uri_) edits true w))
      = logs w
        ++ batchHeader true (urlToFilePath uri_) edits
           :: map (fun textEdit => "  [DRY RUN] " +:+ describeEdit textEdit)
                (rev (sortedEdits edits)))
  /\ (StronglySorted (fun a b => startsAtOrAfter b a) edits ->
      ForallOrdPairs distinctStarts edits ->
      rev (sortedEdits edits) = edits).
Proof.
  intros batchLines batches. split; [|split; [|split]].
  - unfold formatWorkspaceEdit. cbn [documentChanges].
    by rewrite map_app, concat_app.
  - unfold formatWorkspaceEdit. cbn [documentChanges changes].
    f_equal.
    transitivity (batches (entriesBefore ++ (uri_, edits) :: entriesAfter)).
    + unfold batches. f_equal. apply map_ext. by intros [u es].
    + unfold batches. by rewrite map_app, concat_app.
  - intros Hne. rewrite applyTextEdits_dryRun. cbn [snd logs].
    unfold previewLines. by destruct edits.
  - apply sortedEdits_ascending.
Qed.

(** X2 on a batch in ascending order: the preview logs its two edits in
    the order in which formatWorkspaceEdit lists them. *)
Lemma X2_format_keeps_input_order_witness :
  rev (sortedEdits [mkEdit 0 0 0 1 "top"; mkEdit 2 0 2 1 "bottom"])
  = [mkEdit 0 0 0 1 "top"; mkEdit 2 0 2 1 "bottom"].
Proof.
  apply (X2_format_keeps_input_order stripScheme [] [] [] [] "file:///f"
           [mkEdit 0 0 0 1 "top"; mkEdit 2 0 2 1 "bottom"] None
           (MemFs.world ∅)).
  - repeat constructor; left; simpl; lia.
  - repeat constructor. discriminate.
Defined.

(** ** Previews and real runs *)

Lemma applyFileOperation_ok_location {FS} `{FileSystem FS}
    (urlToFilePath : string -> string) operation dryRun (w w' : World FS) :
  applyFileOperation urlToFilePath operation dryRun w = (Ok tt, w') ->
  lacksLocation operation = false.
Proof.
  intros Hrun. destruct (lacksLocation operation) eqn:Hl; [|done].
  destruct (applyFileOperation_lacks urlToFilePath operation dryRun w Hl)
    as [m Hthrow].
  congruence.
Qed.

Lemma applyDocumentChanges_ok_locations {FS} `{FileSystem FS}
    (urlToFilePath relativeToCwd : string -> string)
    changes_ dryRun results (w w' : World FS) rs :
  applyDocumentChanges urlToFilePath relativeToCwd changes_ dryRun results w
  = (Ok rs, w') ->
  Forall (fun operation => lacksLocation operation = false)
    (omap operationOf changes_).
Proof.
  revert results w.
  induction changes_ as [|[op|u es] rest IH]; intros results w; simpl.
  - constructor.
  - unfold bind.
    destruct (applyFileOperation urlToFilePath op dryRun w) as [[[]|e] w1] eqn:E;
      [|done].
    intros Hrest. constructor; [by eapply applyFileOperation_ok_location|].
    by eapply IH.
  - unfold bind.
    destruct (applyTextEdits (urlToFilePath u) es dryRun w) as [[n|e] w1];
      [|done].
    apply IH.
Qed.

(** X16: the preview tells what a real run returns: when a real run of a
    WorkspaceEdit returns, the preview of the same WorkspaceEdit, in any
    world, returns the same array of results. *)
Theorem X16_preview_predicts_results {FS} `{FileSystem FS}
    (urlToFilePath relativeToCwd : string -> string)
    (edit : WorkspaceEdit) (w w' w0 : World FS) results :
  applyWorkspaceEdit urlToFilePath relativeToCwd edit false w
  = (Ok results, w') ->
  fst (applyWorkspaceEdit urlToFilePath relativeToCwd edit true w0)
  = Ok results.
Proof.
  intros Hrun.
  rewrite (applyWorkspaceEdit_results _ _ _ _ _ _ _ Hrun).
  apply applyWorkspaceEdit_preview.
  unfold applyWorkspaceEdit, planOperations in *.
  destruct (documentChanges edit) as [entries|]; [|constructor].
  by eapply applyDocumentChanges_ok_locations.
Qed.

(** X16 on a plan that creates a file and edits another one. *)
Lemma X16_preview_predicts_results_witness :
  let edit :=
    {| documentChanges :=
         Some [FileOp {| kind := "create"; uri := Some "file:///new";
                         oldUri := None; newUri := None |};
               TextDocumentEdit "file:///f" [mkEdit 0 0 0 1 "X"]];
       changes := None |} in
  fst (applyWorkspaceEdit stripScheme id edit true (MemFs.world ∅))
  = Ok [{| ApplyResult.file := "/f"; ApplyResult.changes := 1 |}].
Proof.
  exact (X16_preview_predicts_results stripScheme id
    {| documentChanges :=
         Some [FileOp {| kind := "create"; uri := Some "file:///new";
                         oldUri := None; newUri := None |};
               TextDocumentEdit "file:///f" [mkEdit 0 0 0 1 "X"]];
       changes := None |}
    (MemFs.world {[ "/f" := "abc" ]}) _ (MemFs.world ∅) _ eq_refl).
Defined.

(** ** The two forms of a WorkspaceEdit *)

(** X17: the batches of a legacy mapping, given as entries of
    documentChanges in the same order, are applied and formatted in the
    same way: same result, same world, same text. *)
Theorem X17_both_forms_agree {FS} `{FileSystem FS}
    (urlToFilePath relativeToCwd : string -> string)
    (entries : list (string * list TextEdit))
    (legacy : option (list (string * list TextEdit)))
    (dryRun : bool) (w : World FS) :
  let documents :=
    {| documentChanges := Some (asDocumentChanges entries);
       changes := legacy |} in
  let mapping := {| documentChanges := None; changes := Some entries |} in
  applyWorkspaceEdit urlToFilePath relativeToCwd documents dryRun w
  = applyWorkspaceEdit urlToFilePath relativeToCwd mapping dryRun w
  /\ formatWorkspaceEdit urlToFilePath documents
     = formatWorkspaceEdit urlToFilePath mapping.
Proof.
  split.
  - apply applyDocumentChanges_legacy.
  - unfold formatWorkspaceEdit. simpl. f_equal. f_equal.
    unfold asDocumentChanges. rewrite map_map.
    apply map_ext. by intros [u es].
Qed.

(** ** Files held in memory *)

Lemma truthy_Some value s : truthy value = Some s -> value = Some s /\ s <> "".
Proof.
  unfold truthy. destruct value as [v|]; [|done].
  destruct (decide (v = "")); [done|]. by intros [= <-].
Qed.

Lemma applyTextEdits_frame (filePath : string) edits dryRun
    (w : World MemFs.t) (path : string) :
  path <> filePath ->
  files (snd (applyTextEdits filePath edits dryRun w)) !! path
  = files w !! path.
Proof.
  intros Hne. destruct dryRun; [by rewrite applyTextEdits_dryRun|].
  destruct edits as [|e es]; [done|].
  destruct (fs_text (files w) filePath) as [content|reason] eqn:Htext.
  - rewrite (applyTextEdits_run filePath (e :: es) w content) by done.
    cbv zeta. destruct (patchContent content (e :: es)); [|done].
    simpl. by rewrite lookup_insert_ne.
  - unfold applyTextEdits.
    change (Nat.eqb (length (e :: es)) 0) with false. cbv iota.
    unfold bind, log, readText. cbn [files]. by rewrite Htext.
Qed.

Lemma applyFileOperation_frame (urlToFilePath : string -> string)
    operation dryRun (w : World MemFs.t) (path : string) :
  Forall (fun target => path <> target)
    (operationTargets urlToFilePath operation) ->
  files (snd (applyFileOperation urlToFilePath operation dryRun w)) !! path
  = files w !! path.
Proof.
  destruct dryRun;
    [intros _; by rewrite (proj1 (applyFileOperation_preview_frame _ _ _))|].
  unfold applyFileOperation, operationTargets.
  repeat case_decide; try congruence; try done;
    repeat match goal with
           | |- context [truthy ?v] =>
               let E := fresh "E" in
               destruct (truthy v) eqn:E; [apply truthy_Some in E as [-> _]|]
           end;
    try done; simpl; intros Hall;
    repeat match goal with
           | Hall : Forall _ (_ :: _) |- _ => inversion Hall; clear Hall; subst
           end;
    unfold bind, log, writeFile, deleteFile, renameFile, mutate; simpl;
    unfold MemFs.delete, MemFs.rename;
    repeat match goal with
           | |- context [match files w !! ?k with _ => _ end] =>
               destruct (files w !! k)
           end;
    simpl; try done;
    rewrite ?lookup_insert_ne, ?lookup_delete_ne by done; done.
Qed.

Lemma applyDocumentChanges_frame (urlToFilePath relativeToCwd : string -> string)
    changes_ dryRun results (w : World MemFs.t) (path : string) :
  Forall (fun target => path <> target)
    (concat (map (changeTargets urlToFilePath) changes_)) ->
  files (snd (applyDocumentChanges urlToFilePath relativeToCwd changes_
                dryRun results w)) !! path
  = files w !! path.
Proof.
  revert results w.
  induction changes_ as [|[op|u es] rest IH]; intros results w; simpl.
  - done.
  - intros [Hop Hrest]%Forall_app. unfold bind.
    pose proof (applyFileOperation_frame urlToFilePath op dryRun w path Hop)
      as Hstep.
    destruct (applyFileOperation urlToFilePath op dryRun w) as [[[]|e] w1];
      simpl in *; [|done].
    by rewrite IH.
  - intros Hall. inversion Hall as [|? ? Hu Hrest]; subst. unfold bind.
    pose proof (applyTextEdits_frame (urlToFilePath u) es dryRun w path Hu)
      as Hstep.
    destruct (applyTextEdits (urlToFilePath u) es dryRun w) as [[n|e] w1];
      simpl in *; [|done].
    by rewrite IH.
Qed.

Lemma applyLegacyChanges_frame (urlToFilePath relativeToCwd : string -> string)
    entries dryRun results (w : World MemFs.t) (path : string) :
  Forall (fun target => path <> target)
    (map (fun batch => urlToFilePath (fst batch)) entries) ->
  files (snd (applyLegacyChanges urlToFilePath relativeToCwd entries
                dryRun results w)) !! path
  = files w !! path.
Proof.
  revert results w.
  induction entries as [|[u es] rest IH]; intros results w; simpl.
  - done.
  - intros Hall. inversion Hall as [|? ? Hu Hrest]; subst. unfold bind.
    pose proof (applyTextEdits_frame (urlToFilePath u) es dryRun w path Hu)
      as Hstep.
    destruct (applyTextEdits (urlToFilePath u) es dryRun w) as [[n|e] w1];
      simpl in *; [|done].
    by rewrite IH.
Qed.

(** X18: a run touches no file but those the WorkspaceEdit names: on
    files held in memory, a path that is not a location of a file operation
    of the plan nor the file of one of its batches holds after the run,
    whether the run returns or throws, what it held before. *)
Theorem X18_other_files_are_untouched
    (urlToFilePath relativeToCwd : string -> string)
    (edit : WorkspaceEdit) (dryRun : bool) (w : World MemFs.t)
    (path : string) :
  Forall (fun target => path <> target) (planTargets urlToFilePath edit) ->
  files (snd (applyWorkspaceEdit urlToFilePath relativeToCwd edit dryRun w))
    !! path
  = files w !! path.
Proof.
  unfold planTargets, applyWorkspaceEdit.
  destruct (documentChanges edit) as [entries|].
  - apply applyDocumentChanges_frame.
  - destruct (changes edit) as [entries|]; simpl; [|done].
    apply applyLegacyChanges_frame.
Qed.

(** X18 on a plan that renames a file and edits the renamed file: a third
    file keeps its content. *)
Lemma X18_other_files_are_untouched_witness :
  let fs : MemFs.t := {[ "/a" := "abc"; "/c" := "keep" ]} in
  let edit :=
    {| documentChanges :=
         Some [FileOp {| kind := "rename"; uri := None;
                         oldUri := Some "file:///a";
                         newUri := Some "file:///b" |};
               TextDocumentEdit "file:///b" [mkEdit 0 0 0 1 "X"]];
       changes := None |} in
  files (snd (applyWorkspaceEdit stripScheme id edit false (MemFs.world fs)))
    !! "/c"
  = Some "keep".
Proof.
  exact (X18_other_files_are_untouched stripScheme id
    {| documentChanges :=
         Some [FileOp {| kind := "rename"; uri := None;
                         oldUri := Some "file:///a";
                         newUri := Some "file:///b" |};
               TextDocumentEdit "file:///b" [mkEdit 0 0 0 1 "X"]];
       changes := None |} false
    (MemFs.world {[ "/a" := "abc"; "/c" := "keep" ]}) "/c"
    ltac:(repeat constructor; discriminate)).
Defined.

(** X19: two batches for the same file are applied one after the other:
    the second is applied to the content that the first has written, so its
    positions are positions of that content, and the file ends with both
    applied. *)
Theorem X19_batches_of_one_file_compose
    (urlToFilePath relativeToCwd : string -> string)
    (uri_ : string) (first second : list TextEdit)
    (content content1 content2 : string) (w : World MemFs.t) :
  files w !! urlToFilePath uri_ = Some content ->
  patchContent content first = Ok content1 ->
  patchContent content1 second = Ok content2 ->
  exists w',
    applyWorkspaceEdit urlToFilePath relativeToCwd
      {| documentChanges :=
           Some [TextDocumentEdit uri_ first; TextDocumentEdit uri_ second];
         changes := None |} false w
    = (Ok [entryOf urlToFilePath relativeToCwd (uri_, first);
           entryOf urlToFilePath relativeToCwd (uri_, second)], w')
    /\ files w' = <[urlToFilePath uri_ := content2]> (files w).
Proof.
  intros Hfile Hfirst Hsecond.
  destruct (applyTextEdits_memfs w (urlToFilePath uri_) content content1 first
              Hfile Hfirst) as (w1 & Hrun1 & Hfiles1).
  destruct (applyTextEdits_memfs w1 (urlToFilePath uri_) content1 content2
              second) as (w2 & Hrun2 & Hfiles2);
    [by rewrite Hfiles1, lookup_insert_eq|done|].
  exists w2. split.
  - unfold applyWorkspaceEdit. simpl. unfold bind.
    rewrite Hrun1, Hrun2. reflexivity.
  - by rewrite Hfiles2, Hfiles1, insert_insert_eq.
Qed.

(** X19 on the line abc: the second batch replaces the X that the first
    batch has put in. *)
Lemma X19_batches_of_one_file_compose_witness :
  exists w',
    applyWorkspaceEdit stripScheme id
      {| documentChanges :=
           Some [TextDocumentEdit "file:///f" [mkEdit 0 0 0 1 "X"];
                 TextDocumentEdit "file:///f" [mkEdit 0 0 0 1 "Y"]];
         changes := None |} false (MemFs.world {[ "/f" := "abc" ]})
    = (Ok [{| ApplyResult.file := "/f"; ApplyResult.changes := 1 |};
           {| ApplyResult.file := "/f"; ApplyResult.changes := 1 |}], w')
    /\ files w' = <[ "/f" := "Ybc" ]> ({[ "/f" := "abc" ]} : MemFs.t).
Proof.
  exact (X19_batches_of_one_file_compose stripScheme id "file:///f"
    [mkEdit 0 0 0 1 "X"] [mkEdit 0 0 0 1 "Y"] "abc" "Xbc" "Ybc"
    (MemFs.world {[ "/f" := "abc" ]}) eq_refl eq_refl eq_refl).
Defined.

(** X20: a create followed by a batch for the created file gives the file
    the batch applied to the empty content: the create writes the empty
    file, over whatever the path held, and the batch then reads it. *)
Theorem X20_create_then_edit
    (urlToFilePath relativeToCwd : string -> string)
    (uri_ : string) (edits : list TextEdit) (post : string)
    (w : World MemFs.t) :
  uri_ <> "" ->
  patchContent "" edits = Ok post ->
  exists w',
    applyWorkspaceEdit urlToFilePath relativeToCwd
      {| documentChanges :=
           Some [FileOp {| kind := "create"; uri := Some uri_;
                           oldUri := None; newUri := None |};
                 TextDocumentEdit uri_ edits];
         changes := None |} false w
    = (Ok [entryOf urlToFilePath relativeToCwd (uri_, edits)], w')
    /\ files w' = <[urlToFilePath uri_ := post]> (files w).
Proof.
  intros Huri Hpatch.
  unfold applyWorkspaceEdit, applyDocumentChanges, applyFileOperation.
  simpl. destruct (decide (uri_ = "")) as [|_]; [done|].
  unfold bind at 1. unfold bind at 1. unfold log at 1. cbv iota beta.
  unfold writeFile at 1, mutate at 1. cbn [files calls logs fs_write fileSystem].
  unfold MemFs.write. cbv iota beta.
  match goal with |- context [bind _ _ ?w1] =>
    destruct (applyTextEdits_memfs w1 (urlToFilePath uri_) "" post edits)
      as (w' & Hrun & Hfiles);
      [by apply lookup_insert_eq|done|]
  end.
  exists w'. unfold bind. rewrite Hrun. split; [reflexivity|].
  rewrite Hfiles. apply insert_insert_eq.
Qed.

(** X20 on a path that holds a file: its old content is gone. *)
Lemma X20_create_then_edit_witness :
  exists w',
    applyWorkspaceEdit stripScheme id
      {| documentChanges :=
           Some [FileOp {| kind := "create"; uri := Some "file:///f";
                           oldUri := None; newUri := None |};
                 TextDocumentEdit "file:///f" [mkEdit 0 0 0 0 "new"]];
         changes := None |} false (MemFs.world {[ "/f" := "old" ]})
    = (Ok [{| ApplyResult.file := "/f"; ApplyResult.changes := 1 |}], w')
    /\ files w' = <[ "/f" := "new" ]> ({[ "/f" := "old" ]} : MemFs.t).
Proof.
  exact (X20_create_then_edit stripScheme id "file:///f"
    [mkEdit 0 0 0 0 "new"] "new" (MemFs.world {[ "/f" := "old" ]})
    ltac:(discriminate) eq_refl).
Defined.

(** ** What is shown and what is done *)

(** X22: what applyFileOperation carries out, formatWorkspaceEdit shows: a
    file operation of a known kind that has its locations is rendered as
    one line, with the verb and the paths of the line that its preview
    logs; and an operation of an unknown kind, which is skipped when
    applied, is rendered as no line. *)
Theorem X22_format_shows_what_is_applied {FS} `{FileSystem FS}
    (urlToFilePath : string -> string) (operation : Operation)
    (w : World FS) :
  (knownKind (kind operation) ->
   lacksLocation operation = false ->
   exists verb paths,
     formatChange urlToFilePath (FileOp operation)
     = [verb +:+ ": " +:+ paths]
     /\ applyFileOperation urlToFilePath operation true w
        = (Ok tt,
           mkWorld (files w) (calls w)
             (logs w ++ ["[DRY RUN] " +:+ verb +:+ " file: " +:+ paths])))
  /\ (~ knownKind (kind operation) ->
      formatChange urlToFilePath (FileOp operation) = []
      /\ applyFileOperation urlToFilePath operation true w = (Ok tt, w)).
Proof.
  split.
  - intros Hknown Hl.
    unfold lacksLocation, falsy in Hl.
    unfold formatChange, applyFileOperation.
    destruct Hknown as [Hk|[Hk|Hk]]; rewrite Hk in *; simpl in *.
    + destruct (truthy (uri operation)) as [s|] eqn:Hu; [|done].
      apply truthy_Some in Hu as [-> _]. simpl.
      exists "Create", (urlToFilePath s). done.
    + destruct (truthy (uri operation)) as [s|] eqn:Hu; [|done].
      apply truthy_Some in Hu as [-> _]. simpl.
      exists "Delete", (urlToFilePath s). done.
    + destruct (truthy (oldUri operation)) as [s|] eqn:Ho; [|done].
      destruct (truthy (newUri operation)) as [t|] eqn:Hn; [|done].
      apply truthy_Some in Ho as [-> _]. apply truthy_Some in Hn as [-> _].
      simpl.
      exists "Rename", (urlToFilePath s +:+ " -> " +:+ urlToFilePath t). done.
  - intros Hk. split; [|by apply applyFileOperation_unknown].
    unfold knownKind in Hk. unfold formatChange.
    repeat case_bool_decide; try done; exfalso; tauto.
Qed.

(** X22 on the rename of /a to /b. *)
Lemma X22_format_shows_what_is_applied_witness :
  exists verb paths,
    formatChange stripScheme
      (FileOp {| kind := "rename"; uri := None;
                 oldUri := Some "file:///a"; newUri := Some "file:///b" |})
    = [verb +:+ ": " +:+ paths]
    /\ applyFileOperation stripScheme
         {| kind := "rename"; uri := None;
            oldUri := Some "file:///a"; newUri := Some "file:///b" |}
         true (MemFs.world ∅)
       = (Ok tt,
          mkWorld ∅ [] ["[DRY RUN] " +:+ verb +:+ " file: " +:+ paths]).
Proof.
  exact (proj1 (X22_format_shows_what_is_applied stripScheme
    {| kind := "rename"; uri := None;
       oldUri := Some "file:///a"; newUri := Some "file:///b" |}
    (MemFs.world ∅))
    ltac:(right; right; reflexivity) eq_refl).
Defined.

(** X23: a preview returns exactly when every file operation of the plan
    has its locations: a preview that returns has checked them all, and
    a real run that returns was given a plan that passes this check. *)
Theorem X23_preview_checks_the_locations {FS} `{FileSystem FS}
    (urlToFilePath relativeToCwd : string -> string)
    (edit : WorkspaceEdit) (w : World FS) :
  (isOk (fst (applyWorkspaceEdit urlToFilePath relativeToCwd edit true w))
   = true
   <-> Forall (fun operation => lacksLocation operation = false)
         (planOperations edit))
  /\ (isOk (fst (applyWorkspaceEdit urlToFilePath relativeToCwd edit false w))
      = true ->
      Forall (fun operation => lacksLocation operation = false)
        (planOperations edit)).
Proof.
  assert (forall dryRun,
    isOk (fst (applyWorkspaceEdit urlToFilePath relativeToCwd edit dryRun w))
    = true ->
    Forall (fun operation => lacksLocation operation = false)
      (planOperations edit)) as Hchecked.
  { intros dryRun.
    destruct (applyWorkspaceEdit urlToFilePath relativeToCwd edit dryRun w)
      as [[rs|e] w'] eqn:Hrun; [intros _|done].
    unfold applyWorkspaceEdit, planOperations in *.
    destruct (documentChanges edit) as [entries|]; [|constructor].
    by eapply applyDocumentChanges_ok_locations. }
  split; [split|]; [apply Hchecked| |apply Hchecked].
  intros Hall. by rewrite applyWorkspaceEdit_preview.
Qed.

(** ** The actions of the commands *)

(** X24: the call that an action makes tells the command line it was given:
    two command lines for which the action of a command makes the same call
    have the same positional arguments and the same flag, also when an
    argument is spelled like the flag, since the flag comes after a fixed
    number of arguments; and the actions of two commands never make the same
    call. *)
Theorem X24_call_determines_the_command_line {Options Config : Type}
    (assertConfigFileOptions : Options -> Result unit)
    (configFileOf : Options -> Config)
    (file file' symbol symbol' line_ line_' column column' : string)
    (newName newName' : string) (flag flag' : bool) (opts opts' : Options)
    (call : Invocation Config) :
  (renameAction assertConfigFileOptions configFileOf
     file line_ column newName flag opts = Ok call ->
   renameAction assertConfigFileOptions configFileOf
     file' line_' column' newName' flag' opts' = Ok call ->
   file = file' /\ line_ = line_' /\ column = column'
   /\ newName = newName' /\ flag = flag')
  /\ (referencesAction assertConfigFileOptions configFileOf
        file line_ column flag opts = Ok call ->
      referencesAction assertConfigFileOptions configFileOf
        file' line_' column' flag' opts' = Ok call ->
      file = file' /\ line_ = line_' /\ column = column' /\ flag = flag')
  /\ (definitionAction assertConfigFileOptions configFileOf
        file symbol opts = Ok call ->
      definitionAction assertConfigFileOptions configFileOf
        file' symbol' opts' = Ok call ->
      file = file' /\ symbol = symbol')
  /\ (renameAction assertConfigFileOptions configFileOf
        file line_ column newName flag opts = Ok call ->
      commandName call = "rename")
  /\ (referencesAction assertConfigFileOptions configFileOf
        file line_ column flag opts = Ok call ->
      commandName call = "references")
  /\ (definitionAction assertConfigFileOptions configFileOf
        file symbol opts = Ok call ->
      commandName call = "definition").
Proof.
  unfold renameAction, referencesAction, definitionAction.
  destruct (assertConfigFileOptions opts) as [[]|e],
           (assertConfigFileOptions opts') as [[]|e'];
    repeat split; intros; destruct flag, flag'; simplify_eq/=; done.
Qed.

(** ** Edits that overlap *)

(** X25: nothing checks that the edits of a batch are apart: a batch of
    same-line edits on lines of the file is applied whatever the ranges are,
    overlapping or not, and the array keeps its number of elements. *)
Theorem X25_same_line_edits_always_apply (lines : list string)
    (edits : list TextEdit) :
  Forall (fun edit =>
            line (start (range edit)) = line (end_ (range edit))
            /\ line (start (range edit)) < length lines) edits ->
  exists lines',
    applyEdits lines (sortedEdits edits) = Ok lines'
    /\ length lines' = length lines.
Proof.
  intros Hall.
  assert (Forall (fun edit =>
            line (start (range edit)) = line (end_ (range edit))
            /\ line (start (range edit)) < length lines) (sortedEdits edits))
    as Hsorted
    by (eapply Permutation_Forall; [symmetry; apply sortedEdits_perm|done]).
  clear Hall. revert lines Hsorted.
  induction (sortedEdits edits) as [|e rest IH]; intros lines Hall.
  - by exists lines.
  - inversion Hall as [|? ? [Heq Hlt] Hrest]; subst.
    destruct (lookup_lt_is_Some_2 _ _ Hlt) as [l Hl].
    simpl. rewrite (applyEdit_single _ _ l) by done.
    destruct (IH (<[line (start (range e)) :=
                      Js.substring_to (character (start (range e))) l
                      +:+ newText e
                      +:+ Js.substring_from (character (end_ (range e))) l]>
                    lines))
      as (lines' & Hrun & Hlen).
    + eapply Forall_impl; [exact Hrest|].
      intros e' [Heq' Hlt']. by rewrite length_insert.
    + exists lines'. split; [done|]. by rewrite Hlen, length_insert.
Qed.

(** X25 on two edits of the same line that overlap. *)
Lemma X25_same_line_edits_always_apply_witness :
  exists lines',
    applyEdits ["abcdef"] (sortedEdits [mkEdit 0 0 0 4 "X"; mkEdit 0 2 0 6 "Y"])
    = Ok lines'
    /\ length lines' = 1.
Proof.
  apply (X25_same_line_edits_always_apply ["abcdef"]
           [mkEdit 0 0 0 4 "X"; mkEdit 0 2 0 6 "Y"]).
  repeat constructor.
Defined.

(** ** What a preview depends on *)

Lemma applyFileOperation_preview_fixed {FS} `{FileSystem FS}
    (urlToFilePath : string -> string) operation :
  exists result lines, forall w : World FS,
    applyFileOperation urlToFilePath operation true w
    = (result, mkWorld (files w) (calls w) (logs w ++ lines)).
Proof.
  unfold applyFileOperation.
  repeat case_decide;
    repeat match goal with
           | |- context [truthy ?v] => destruct (truthy v)
           end;
    simpl;
    try (eexists (Ok tt), [_]; intros w; reflexivity);
    eexists _, []; intros w; unfold throw, ret;
    by rewrite app_nil_r, world_eta.
Qed.

Lemma applyDocumentChanges_preview_fixed {FS} `{FileSystem FS}
    (urlToFilePath relativeToCwd : string -> string) changes_ results :
  exists result lines, forall w : World FS,
    applyDocumentChanges urlToFilePath relativeToCwd changes_ true results w
    = (result, mkWorld (files w) (calls w) (logs w ++ lines)).
Proof.
  revert results.
  induction changes_ as [|[op|u es] rest IH]; intros results; simpl.
  - exists (Ok results), []. intros w. unfold ret.
    by rewrite app_nil_r, world_eta.
  - destruct (applyFileOperation_preview_fixed urlToFilePath op)
      as (r1 & l1 & Hop).
    destruct (IH results) as (r2 & l2 & Hrest).
    destruct r1 as [[]|e].
    + exists r2, (l1 ++ l2). intros w. unfold bind.
      rewrite Hop, Hrest. simpl. by rewrite <- app_assoc.
    + exists (Throw e), l1. intros w. unfold bind. by rewrite Hop.
  - destruct (IH (results
                  ++ [{| ApplyResult.file := relativeToCwd (urlToFilePath u);
                         ApplyResult.changes := length es |}]))
      as (r2 & l2 & Hrest).
    exists r2, (previewLines (urlToFilePath u) es ++ l2). intros w.
    unfold bind. rewrite applyTextEdits_dryRun, Hrest. simpl.
    by rewrite <- app_assoc.
Qed.

Lemma applyLegacyChanges_preview_fixed {FS} `{FileSystem FS}
    (urlToFilePath relativeToCwd : string -> string) entries results :
  exists result lines, forall w : World FS,
    applyLegacyChanges urlToFilePath relativeToCwd entries true results w
    = (result, mkWorld (files w) (calls w) (logs w ++ lines)).
Proof.
  revert results.
  induction entries as [|[u es] rest IH]; intros results; simpl.
  - exists (Ok results), []. intros w. unfold ret.
    by rewrite app_nil_r, world_eta.
  - destruct (IH (results
                  ++ [{| ApplyResult.file := relativeToCwd (urlToFilePath u);
                         ApplyResult.changes := length es |}]))
      as (r2 & l2 & Hrest).
    exists r2, (previewLines (urlToFilePath u) es ++ l2). intros w.
    unfold bind. rewrite applyTextEdits_dryRun, Hrest. simpl.
    by rewrite <- app_assoc.
Qed.

(** X26: a preview depends on the WorkspaceEdit alone: what it returns or
    throws and the lines it logs are the same in every world, whatever the
    files hold and whether they exist, since it reads none of them. *)
Theorem X26_preview_depends_on_the_edit_alone {FS} `{FileSystem FS}
    (urlToFilePath relativeToCwd : string -> string)
    (edit : WorkspaceEdit) :
  exists result lines, forall w : World FS,
    applyWorkspaceEdit urlToFilePath relativeToCwd edit true w
    = (result, mkWorld (files w) (calls w) (logs w ++ lines)).
Proof.
  unfold applyWorkspaceEdit.
  destruct (documentChanges edit) as [entries|].
  - apply applyDocumentChanges_preview_fixed.
  - destruct (changes edit) as [entries|].
    + apply applyLegacyChanges_preview_fixed.
    + exists (Ok []), []. intros w. unfold ret.
      by rewrite app_nil_r, world_eta.
Qed.
